(** * web-audio-api: the post list page (page1.js) and the audio panel (page2.js)

    A shallow embedding of the two page scripts.  Pure helpers
    ([sortPosts], [groupByUser]) are plain functions on lists; the
    [async] entry points are written in a small state-and-exception monad
    in which [await] is sequencing, a rejected promise is a thrown
    completion and [try]/[catch] is [try_catch]. *)

From Stdlib Require Import String Ascii.
From Stdlib Require Import List ZArith Lia Bool Permutation Sorted.
Import ListNotations.

Local Open Scope Z_scope.

(** ** Completions and the monad of the [async] functions *)

Inductive completion (A : Type) : Type :=
| Normal (a : A)
| Throw (err : string).
Arguments Normal {A} a.
Arguments Throw {A} err.

Module Eff.

Section Monad.
Context {St : Type}.

Definition M (A : Type) : Type := St -> completion A * St.

Definition ret {A : Type} (a : A) : M A := fun s => (Normal a, s).

Definition bind {A B : Type} (m : M A) (k : A -> M B) : M B :=
  fun s =>
    match m s with
    | (Normal a, s') => k a s'
    | (Throw e, s') => (Throw e, s')
    end.

Definition throw {A : Type} (err : string) : M A := fun s => (Throw err, s).

Definition try_catch {A : Type} (m : M A) (handler : string -> M A) : M A :=
  fun s =>
    match m s with
    | (Normal a, s') => (Normal a, s')
    | (Throw e, s') => handler e s'
    end.
End Monad.
Arguments M : clear implicits.

End Eff.

Import Eff.

Notation "x <- m ;; k" := (bind m (fun x => k))
  (at level 61, m at next level, right associativity).
Notation "m ;;; k" := (bind m (fun _ => k))
  (at level 61, right associativity).

(** ** ECMAScript built-ins used by the scripts *)

Module Js.

Section ArraySort.
Context {A : Type}.
Variable comparefn : A -> A -> Z.

(** [x] stood before every element of [l]; it moves past exactly the
    elements that the comparator orders strictly before it. *)
Fixpoint sort_insert (x : A) (l : list A) : list A :=
  match l with
  | [] => [x]
  | y :: l' => if comparefn x y <=? 0 then x :: l else y :: sort_insert x l'
  end.

(** [Array.prototype.sort(comparefn)]: the stable sort in which [a] comes
    before [b] when [comparefn(a, b) < 0]. *)
Fixpoint sort (l : list A) : list A :=
  match l with
  | [] => []
  | x :: l' => sort_insert x (sort l')
  end.
End ArraySort.

(** [Array.prototype.reverse]. *)
Definition reverse {A : Type} (l : list A) : list A := rev l.

(** An ordinary object whose property names are the decimal strings of
    integers, kept in property creation order.  The name of the integer [k]
    is represented by [k] itself. *)
Definition object (V : Type) : Type := list (Z * V).

(** A property name is an array index when it is the canonical string of an
    integer in [0, 2^32 - 2]. *)
Definition is_array_index (k : Z) : bool := (0 <=? k) && (k <? 2 ^ 32 - 1).

Section Object.
Context {V : Type}.

(** [o[k]]: [None] is [undefined]. *)
Fixpoint get (o : object V) (k : Z) : option V :=
  match o with
  | [] => None
  | (k', v) :: o' => if k' =? k then Some v else get o' k
  end.

(** [o[k] = v]: an existing property keeps its place, a new one is
    created last. *)
Fixpoint set (o : object V) (k : Z) (v : V) : object V :=
  match o with
  | [] => [(k, v)]
  | (k', v') :: o' => if k' =? k then (k', v) :: o' else (k', v') :: set o' k v
  end.

Fixpoint insert_key (e : Z * V) (l : object V) : object V :=
  match l with
  | [] => [e]
  | e' :: l' => if fst e <=? fst e' then e :: l else e' :: insert_key e l'
  end.

Fixpoint ascending (l : object V) : object V :=
  match l with
  | [] => []
  | e :: l' => insert_key e (ascending l')
  end.

(** [OrdinaryOwnPropertyKeys]: array indices in ascending numeric order,
    then the other names in creation order. *)
Definition own_properties (o : object V) : object V :=
  ascending (filter (fun e => is_array_index (fst e)) o)
    ++ filter (fun e => negb (is_array_index (fst e))) o.

(** [Object.values(o)]. *)
Definition values (o : object V) : list V := map snd (own_properties o).
End Object.

(** [Array.prototype.flat()] on an array of arrays of non-array elements. *)
Definition flat {A : Type} (l : list (list A)) : list A := concat l.

End Js.

(** ** page1.js *)

Module Page1.

(** A post as the endpoint delivers it: [id] and [userId] are integers,
    [title] and [body] strings, here of 8-bit code units. *)
Record post : Type := mkPost {
  id : Z;
  userId : Z;
  title : string;
  body : string
}.

(** The two values [data.sortDirection] and the [dir] parameter take. *)
Inductive direction : Type := asc | desc.

(** The comparator passed to [posts.sort] in [sortPosts]; [<] and [>] on
    strings compare code units lexicographically. *)
Definition compareTitles (a b : post) : Z :=
  if (title a <? title b)%string then 1
  else if (title b <? title a)%string then -1
  else 0.

Definition sortPosts (posts : list post) (dir : direction) : list post :=
  let sorted := Js.sort compareTitles posts in
  match dir with
  | desc => Js.reverse sorted
  | asc => sorted
  end.

(** The reducer of [groupByUser].  The property name is the decimal string
    of [item.userId]; [acc[key].push(item)] extends the array stored under
    that name, which the guard before it has created when it was missing, so
    the last branch is never taken. *)
Definition groupStep (acc : Js.object (list post)) (item : post)
  : Js.object (list post) :=
  let key := userId item in
  let acc1 :=
    match Js.get acc key with
    | None => Js.set acc key []
    | Some _ => acc
    end in
  match Js.get acc1 key with
  | Some arr => Js.set acc1 key (arr ++ [item])
  | None => acc1
  end.

Definition groupByUser (posts : list post) : list post :=
  let grouped := fold_left groupStep posts [] in
  Js.flat (Js.values grouped).

(** *** Vocabulary for stating the ordering properties *)

(** [a] may stand before [b] in a list of titles in descending order. *)
Definition title_ge (a b : post) : Prop := (title b <=? title a)%string = true.

(** [a] may stand before [b] in a list of titles in ascending order. *)
Definition title_le (a b : post) : Prop := (title a <=? title b)%string = true.

(** The records of one user, in the order of [l]. *)
Definition members (k : Z) (l : list post) : list post :=
  filter (fun p => userId p =? k) l.

(** The distinct values of [ks], each at its first occurrence. *)
Fixpoint first_seen (ks : list Z) : list Z :=
  match ks with
  | [] => []
  | k :: ks' => k :: filter (fun k' => negb (k' =? k)) (first_seen ks')
  end.

(** Records with the same [userId] are adjacent: whatever lies between two
    records of one user belongs to that user. *)
Definition contiguous (l : list post) : Prop :=
  forall l1 a l2 b l3,
    l = l1 ++ a :: l2 ++ b :: l3 ->
    userId a = userId b ->
    Forall (fun c => userId c = userId a) l2.

(** The object [groupByUser] accumulates: one property per user, created
    when the user is first met, holding the user's records. *)
Definition grouped_of (l : list post) : Js.object (list post) :=
  map (fun k => (k, members k l)) (first_seen (map userId l)).

(** Posts of the users 2, 1, 2. *)
Definition two_one_two : list post :=
  [ mkPost 1 2 "a" ""; mkPost 2 1 "b" ""; mkPost 3 2 "c" "" ]%string.

(** [data.sortDirection === "asc" ? "desc" : "asc"]. *)
Definition toggled (d : option direction) : direction :=
  match d with
  | Some asc => desc
  | _ => asc
  end.

(** The posts of the running example. *)
Definition B_A_C : list post :=
  [ mkPost 1 1 "B" ""; mkPost 2 1 "A" ""; mkPost 3 1 "C" "" ]%string.

(** *** The page: session data, network, console and document *)

(** What [render] leaves in the [#posts] element for one post:
    the [li] built by [buildPostElement]. *)
Record postElement : Type := mkPostElement {
  postId_text : Z;
  userId_text : Z;
  title_text : string;
  body_text : string
}.

Definition buildPostElement (postId userId : Z) (title postBody : string)
  : postElement :=
  mkPostElement postId userId title postBody.

(** The body of a response as [response.json()] sees it, for an endpoint
    that sends an array of posts or no JSON at all; [Page1Any] below takes
    bodies of any JSON kind. *)
Inductive responseBody : Type :=
| InvalidJson (err : string)
| JsonPosts (ps : list post).

(** How one [fetch] call settles. *)
Inductive reply : Type :=
| Rejected (err : string)
| Response (b : responseBody).

(** [data] together with what the script can observe and change around it.
    [requests], [console] and [renders] grow at the end. *)
Record page : Type := mkPage {
  posts : list post;
  sortDirection : option direction;
  requests : list (option string);
  console : list string;
  renders : list (list post);
  rootElement : list postElement
}.

(** The page as the script finds it when loaded. *)
Definition load : page := mkPage [] None [] [] [] [].

Definition M : Type -> Type := Eff.M page.

Definition set_posts (ps : list post) : M unit :=
  fun s => (Normal tt,
            mkPage ps (sortDirection s) (requests s) (console s)
                   (renders s) (rootElement s)).

Definition set_sortDirection (d : direction) : M unit :=
  fun s => (Normal tt,
            mkPage (posts s) (Some d) (requests s) (console s)
                   (renders s) (rootElement s)).

Definition get_posts : M (list post) := fun s => (Normal (posts s), s).

Definition get_sortDirection : M (option direction) :=
  fun s => (Normal (sortDirection s), s).

Definition console_log (err : string) : M unit :=
  fun s => (Normal tt,
            mkPage (posts s) (sortDirection s) (requests s)
                   (console s ++ [err]) (renders s) (rootElement s)).

Section Pipeline.
(** The network: how the [n]-th request of the page, made with the given
    argument ([None] is [undefined]), settles. *)
Variable network : nat -> option string -> reply.

Definition fetch (apiUrl : option string) : M responseBody :=
  fun s =>
    let s' := mkPage (posts s) (sortDirection s) (requests s ++ [apiUrl])
                     (console s) (renders s) (rootElement s) in
    match network (length (requests s)) apiUrl with
    | Rejected e => (Throw e, s')
    | Response b => (Normal b, s')
    end.

Definition json (response : responseBody) : M (list post) :=
  match response with
  | InvalidJson e => throw e
  | JsonPosts ps => ret ps
  end.

Definition render (ps : list post) : M unit :=
  fun s =>
    (Normal tt,
     mkPage (posts s) (sortDirection s) (requests s) (console s)
            (renders s ++ [ps])
            (map (fun p => buildPostElement (id p) (userId p) (title p) (body p))
                 ps)).

Definition fetchPosts (apiUrl : option string) : M (list post) :=
  try_catch
    (response <- fetch apiUrl ;;
     json response)
    (fun err =>
       console_log err ;;;
       ret []).

Definition fetchAndRenderPosts (apiUrl : string) : M unit :=
  ps <- fetchPosts (Some apiUrl) ;;
  set_posts ps ;;;
  ps <- get_posts ;;
  render ps.

(** [if (data.posts.length === 0) data.posts = await fetchPosts();] *)
Definition fetchIfEmpty : M unit :=
  ps <- get_posts ;;
  match ps with
  | [] => fetched <- fetchPosts None ;; set_posts fetched
  | _ :: _ => ret tt
  end.

Definition sortAndRenderPosts : M unit :=
  fetchIfEmpty ;;;
  d <- get_sortDirection ;;
  set_sortDirection (toggled d) ;;;
  ps <- get_posts ;;
  d <- get_sortDirection ;;
  set_posts (sortPosts ps (match d with Some d' => d' | None => asc end)) ;;;
  ps <- get_posts ;;
  render ps.

Definition groupAndRenderPosts : M unit :=
  fetchIfEmpty ;;;
  ps <- get_posts ;;
  set_posts (groupByUser ps) ;;;
  ps <- get_posts ;;
  render ps.
End Pipeline.

(** *** Using the page *)

(** The three public functions, as the page's buttons call them. *)
Inductive action : Type :=
| FetchAndRender (apiUrl : string)
| SortAndRender
| GroupAndRender.

(** The list [render] leaves on screen for the given posts. *)
Definition view_of (ps : list post) : list postElement :=
  map (fun p => buildPostElement (id p) (userId p) (title p) (body p)) ps.

(** The records with a given title, in the order of [l]. *)
Definition titled (t : string) (l : list post) : list post :=
  filter (fun p => String.eqb (title p) t) l.

(** How many of the calls are [sortAndRenderPosts]. *)
Fixpoint sorts (l : list action) : nat :=
  match l with
  | [] => O
  | SortAndRender :: l' => S (sorts l')
  | _ :: l' => sorts l'
  end.

End Page1.

(** ** page1.js, whatever JSON the endpoint sends

    [response.json()] hands back whatever value the body holds, and the
    script stores it in [data.posts] unchecked.  Here the body may be any
    JSON value; an array is still taken to hold post records. *)

Module Page1Any.
Import Page1.

(** A JSON value that is not an array, with what the script can observe of
    it: a number and a boolean give [undefined] for every property the
    script reads, of a string it reads [length], and of an object it reads
    [length] only to compare it with [0].  No JSON value has a callable
    [forEach], [sort] or [reduce]. *)
Inductive nonArray : Type :=
| JsonNull
| JsonBoolean (b : bool)
| JsonNumber
| JsonString (s : string)
| JsonObject (lengthIsZero : bool).

(** What [data.posts] can hold. *)
Inductive value : Type :=
| ArrayOf (ps : list post)
| NotArray (v : nonArray).

Inductive responseBody : Type :=
| InvalidJson (err : string)
| Json (v : value).

Inductive reply : Type :=
| Rejected (err : string)
| Response (b : responseBody).

Record page : Type := mkPage {
  posts : value;
  sortDirection : option direction;
  requests : list (option string);
  console : list string;
  renders : list value;
  rootElement : list postElement
}.

Definition load : page := mkPage (ArrayOf []) None [] [] [] [].

Definition M : Type -> Type := Eff.M page.

Definition set_posts (ps : value) : M unit :=
  fun s => (Normal tt,
            mkPage ps (sortDirection s) (requests s) (console s)
                   (renders s) (rootElement s)).

Definition set_sortDirection (d : direction) : M unit :=
  fun s => (Normal tt,
            mkPage (posts s) (Some d) (requests s) (console s)
                   (renders s) (rootElement s)).

Definition get_posts : M value := fun s => (Normal (posts s), s).

Definition get_sortDirection : M (option direction) :=
  fun s => (Normal (sortDirection s), s).

Definition console_log (err : string) : M unit :=
  fun s => (Normal tt,
            mkPage (posts s) (sortDirection s) (requests s)
                   (console s ++ [err]) (renders s) (rootElement s)).

(** [posts.length === 0]; reading a property of [null] is a [TypeError]. *)
Definition lengthIsZero (ps : value) : completion bool :=
  match ps with
  | ArrayOf [] => Normal true
  | ArrayOf (_ :: _) => Normal false
  | NotArray JsonNull => Throw "TypeError"%string
  | NotArray (JsonString EmptyString) => Normal true
  | NotArray (JsonString (String _ _)) => Normal false
  | NotArray (JsonObject z) => Normal z
  | NotArray (JsonBoolean _) | NotArray JsonNumber => Normal false
  end.

(** An expression that does not touch the page. *)
Definition pure {A : Type} (c : completion A) : M A := fun s => (c, s).

(** [sortPosts]: [posts.sort] is callable on arrays only. *)
Definition sortPosts (ps : value) (dir : direction) : M value :=
  match ps with
  | ArrayOf l => ret (ArrayOf (Page1.sortPosts l dir))
  | NotArray _ => throw "TypeError"%string
  end.

(** [groupByUser]: [posts.reduce] is callable on arrays only. *)
Definition groupByUser (ps : value) : M value :=
  match ps with
  | ArrayOf l => ret (ArrayOf (Page1.groupByUser l))
  | NotArray _ => throw "TypeError"%string
  end.

Section Pipeline.
Variable network : nat -> option string -> reply.

Definition fetch (apiUrl : option string) : M responseBody :=
  fun s =>
    let s' := mkPage (posts s) (sortDirection s) (requests s ++ [apiUrl])
                     (console s) (renders s) (rootElement s) in
    match network (length (requests s)) apiUrl with
    | Rejected e => (Throw e, s')
    | Response b => (Normal b, s')
    end.

Definition json (response : responseBody) : M value :=
  match response with
  | InvalidJson e => throw e
  | Json v => ret v
  end.

(** [render] empties the list first; [posts.forEach] is callable on arrays
    only. *)
Definition render (ps : value) : M unit :=
  fun s =>
    match ps with
    | ArrayOf l =>
        (Normal tt,
         mkPage (posts s) (sortDirection s) (requests s) (console s)
                (renders s ++ [ps])
                (map (fun p => buildPostElement (id p) (userId p) (title p) (body p))
                     l))
    | NotArray _ =>
        (Throw "TypeError"%string,
         mkPage (posts s) (sortDirection s) (requests s) (console s)
                (renders s ++ [ps]) [])
    end.

Definition fetchPosts (apiUrl : option string) : M value :=
  try_catch
    (response <- fetch apiUrl ;;
     json response)
    (fun err =>
       console_log err ;;;
       ret (ArrayOf [])).

Definition fetchAndRenderPosts (apiUrl : string) : M unit :=
  ps <- fetchPosts (Some apiUrl) ;;
  set_posts ps ;;;
  ps <- get_posts ;;
  render ps.

(** [if (data.posts.length === 0) data.posts = await fetchPosts();] *)
Definition fetchIfEmpty : M unit :=
  ps <- get_posts ;;
  empty <- pure (lengthIsZero ps) ;;
  if empty : bool
  then fetched <- fetchPosts None ;; set_posts fetched
  else ret tt.

Definition sortAndRenderPosts : M unit :=
  fetchIfEmpty ;;;
  d <- get_sortDirection ;;
  set_sortDirection (toggled d) ;;;
  ps <- get_posts ;;
  d <- get_sortDirection ;;
  sorted <- sortPosts ps (match d with Some d' => d' | None => asc end) ;;
  set_posts sorted ;;;
  ps <- get_posts ;;
  render ps.

Definition groupAndRenderPosts : M unit :=
  fetchIfEmpty ;;;
  ps <- get_posts ;;
  grouped <- groupByUser ps ;;
  set_posts grouped ;;;
  ps <- get_posts ;;
  render ps.

Definition perform (a : action) : M unit :=
  match a with
  | FetchAndRender apiUrl => fetchAndRenderPosts apiUrl
  | SortAndRender => sortAndRenderPosts
  | GroupAndRender => groupAndRenderPosts
  end.

(** The calls are made one after the other, each on the page the one before
    left, whether that one threw or not; the completions are listed in the
    order of the calls. *)
Fixpoint performAll (l : list action) (s : page) : list (completion unit) * page :=
  match l with
  | [] => ([], s)
  | a :: l' =>
      let r := perform a s in
      let r' := performAll l' (snd r) in
      (fst r :: fst r', snd r')
  end.

(** What [fetchPosts] returns for a reply, and what it logs. *)
Definition delivered (r : reply) : value :=
  match r with
  | Response (Json v) => v
  | Response (InvalidJson _) | Rejected _ => ArrayOf []
  end.

Definition logged (r : reply) : list string :=
  match r with
  | Response (Json _) => []
  | Response (InvalidJson err) | Rejected err => [err]
  end.

(** No reply is JSON that is not an array. *)
Definition arrays_only : Prop :=
  forall (n : nat) (apiUrl : option string) (v : nonArray),
    network n apiUrl <> Response (Json (NotArray v)).
End Pipeline.

(** A reply and a page of [Page1], which holds arrays only, seen here. *)
Definition of_typed_reply (r : Page1.reply) : reply :=
  match r with
  | Page1.Rejected err => Rejected err
  | Page1.Response (Page1.InvalidJson err) => Response (InvalidJson err)
  | Page1.Response (Page1.JsonPosts ps) => Response (Json (ArrayOf ps))
  end.

Definition of_typed_page (s : Page1.page) : page :=
  mkPage (ArrayOf (Page1.posts s)) (Page1.sortDirection s) (Page1.requests s)
         (Page1.console s) (map ArrayOf (Page1.renders s)) (Page1.rootElement s).

End Page1Any.

(** ** page2.js *)

Module Page2.

(** Decoded audio, opaque to the script. *)
Inductive AudioBuffer : Type := PCM (data : list Z).

(** An [AudioBufferSourceNode] as the audio engine keeps it. *)
Record sourceState : Type := mkSource {
  buffer : option AudioBuffer;
  connected : bool;
  startCalled : bool;
  stopCalled : bool
}.

(** One container built by [createAudioControls]: the label, the two
    buttons and the variables its listeners close over. *)
Record audioControl : Type := mkControl {
  fileName : string;
  audioBuffer : AudioBuffer;
  playDisabled : bool;
  stopDisabled : bool;
  sourceNode : option nat
}.

(** What the script does to its surroundings, in the order it happens. *)
Inductive effect : Type :=
| FetchCall (url : string)
| ArrayBufferCall (url : string)
| DecodeCall (bytes : list Z)
| ConsoleError (msg : string)
| AppendChild (fileName : string).

(** The audio context (its source nodes, named by creation index), the
    [#audioControls] element and the trace of effects. *)
Record page : Type := mkPage {
  nodes : list sourceState;
  audioControls : list audioControl;
  effects : list effect
}.

Definition M : Type -> Type := Eff.M page.

Definition emit (e : effect) : M unit :=
  fun s => (Normal tt, mkPage (nodes s) (audioControls s) (effects s ++ [e])).

(** [l] with [f] applied to its [n]-th element. *)
Fixpoint modify {A : Type} (n : nat) (f : A -> A) (l : list A) : list A :=
  match l, n with
  | [], _ => []
  | x :: l', O => f x :: l'
  | x :: l', S n' => x :: modify n' f l'
  end.

Definition update_node (n : nat) (f : sourceState -> sourceState) : M unit :=
  fun s => (Normal tt, mkPage (modify n f (nodes s)) (audioControls s) (effects s)).

Definition update_control (i : nat) (f : audioControl -> audioControl) : M unit :=
  fun s => (Normal tt, mkPage (nodes s) (modify i f (audioControls s)) (effects s)).

(** *** The audio engine *)

(** [new AudioContext()]: a context without nodes, on a page without
    controls. *)
Definition createAudioContext : page := mkPage [] [] [].

(** [audioContext.createBufferSource()]: always a new node. *)
Definition createBufferSource : M nat :=
  fun s =>
    (Normal (length (nodes s)),
     mkPage (nodes s ++ [mkSource None false false false])
            (audioControls s) (effects s)).

Definition set_buffer (n : nat) (b : AudioBuffer) : M unit :=
  update_node n (fun x => mkSource (Some b) (connected x) (startCalled x) (stopCalled x)).

Definition connect (n : nat) : M unit :=
  update_node n (fun x => mkSource (buffer x) true (startCalled x) (stopCalled x)).

(** [node.start()]: an [InvalidStateError] when [start] was called before. *)
Definition start (n : nat) : M unit :=
  fun s =>
    match nth_error (nodes s) n with
    | Some x =>
        if startCalled x then (Throw "InvalidStateError"%string, s)
        else update_node n
               (fun x => mkSource (buffer x) (connected x) true (stopCalled x)) s
    | None => (Throw "TypeError"%string, s)
    end.

(** [node.stop()]: an [InvalidStateError] when [start] was never called. *)
Definition stop (n : nat) : M unit :=
  fun s =>
    match nth_error (nodes s) n with
    | Some x =>
        if startCalled x
        then update_node n
               (fun x => mkSource (buffer x) (connected x) (startCalled x) true) s
        else (Throw "InvalidStateError"%string, s)
    | None => (Throw "TypeError"%string, s)
    end.

(** *** Controls *)

Definition set_playDisabled (i : nat) (b : bool) : M unit :=
  update_control i
    (fun c => mkControl (fileName c) (audioBuffer c) b (stopDisabled c) (sourceNode c)).

Definition set_stopDisabled (i : nat) (b : bool) : M unit :=
  update_control i
    (fun c => mkControl (fileName c) (audioBuffer c) (playDisabled c) b (sourceNode c)).

Definition set_sourceNode (i : nat) (n : option nat) : M unit :=
  update_control i
    (fun c => mkControl (fileName c) (audioBuffer c) (playDisabled c) (stopDisabled c) n).

(** [createControlButtons] and the variable declarations of
    [createAudioControls]. *)
Definition createAudioControls (audioFileURL : string) (audioBuffer : AudioBuffer)
  : audioControl :=
  mkControl audioFileURL audioBuffer false true None.

(** The buttons are those of the [i]-th container. *)
Definition playAudio (audioBuffer : AudioBuffer) (i : nat) (sourceNode : option nat)
  : M (option nat) :=
  sourceNode <- createBufferSource ;;
  set_buffer sourceNode audioBuffer ;;;
  connect sourceNode ;;;
  start sourceNode ;;;
  set_playDisabled i true ;;;
  set_stopDisabled i false ;;;
  ret (Some sourceNode).

Definition stopAudio (sourceNode : option nat) (i : nat) : M (option nat) :=
  match sourceNode with
  | Some n => stop n
  | None => ret tt
  end ;;;
  set_playDisabled i false ;;;
  set_stopDisabled i true ;;;
  ret None.

(** The click listener of the play button of the [i]-th container. *)
Definition clickPlay (i : nat) : M unit :=
  fun s =>
    match nth_error (audioControls s) i with
    | Some c =>
        if negb (playDisabled c)
        then (n <- playAudio (audioBuffer c) i (sourceNode c) ;;
              set_sourceNode i n) s
        else (Normal tt, s)
    | None => (Normal tt, s)
    end.

(** The click listener of the stop button of the [i]-th container. *)
Definition clickStop (i : nat) : M unit :=
  fun s =>
    match nth_error (audioControls s) i with
    | Some c =>
        if negb (stopDisabled c)
        then (stopAudio (sourceNode c) i ;;; ret tt) s
        else (Normal tt, s)
    | None => (Normal tt, s)
    end.

Inductive click : Type :=
| Play (i : nat)
| Stop (i : nat).

Definition dispatch (e : click) : M unit :=
  match e with
  | Play i => clickPlay i
  | Stop i => clickStop i
  end.

(** The listeners run one after the other, one per click. *)
Fixpoint clicks (es : list click) : M unit :=
  match es with
  | [] => ret tt
  | e :: es' => dispatch e ;;; clicks es'
  end.

(** *** Loading *)

Inductive bodyReply : Type :=
| BodyRejected (message : string)
| Bytes (data : list Z).

Inductive reply : Type :=
| Rejected (message : string)
| Response (b : bodyReply).

Definition audioFiles : list string :=
  [ "https://ia600905.us.archive.org/19/items/FREE_background_music_dhalius/BackgroundMusica2.ogg";
    "https://ia800905.us.archive.org/19/items/FREE_background_music_dhalius/Hangout.ogg";
    "https://ia800905.us.archive.org/19/items/FREE_background_music_dhalius/Lotus.ogg"
  ]%string.

Section Loading.
(** The network and the decoder of the audio engine. *)
Variable network : string -> reply.
Variable decoder : list Z -> completion AudioBuffer.

Definition fetch (url : string) : M (string * bodyReply) :=
  emit (FetchCall url) ;;;
  match network url with
  | Rejected m => throw m
  | Response b => ret (url, b)
  end.

Definition arrayBuffer (response : string * bodyReply) : M (list Z) :=
  emit (ArrayBufferCall (fst response)) ;;;
  match snd response with
  | BodyRejected m => throw m
  | Bytes d => ret d
  end.

Definition decodeAudioData (arrayBuffer : list Z) : M AudioBuffer :=
  emit (DecodeCall arrayBuffer) ;;;
  match decoder arrayBuffer with
  | Throw m => throw m
  | Normal b => ret b
  end.

Definition loadAudioFile (audioFileURL : string) : M (option AudioBuffer) :=
  try_catch
    (response <- fetch audioFileURL ;;
     bytes <- arrayBuffer response ;;
     b <- decodeAudioData bytes ;;
     ret (Some b))
    (fun message =>
       emit (ConsoleError ("Error loading audio file: " ++ message)%string) ;;;
       ret None).

Definition appendChild (audioControl : audioControl) : M unit :=
  fun s =>
    (Normal tt,
     mkPage (nodes s) (audioControls s ++ [audioControl])
            (effects s ++ [AppendChild (fileName audioControl)])).

(** The body of the [for ... of] loop of the [DOMContentLoaded] listener. *)
Definition loadOne (audioFileURL : string) : M unit :=
  audioBuffer <- loadAudioFile audioFileURL ;;
  match audioBuffer with
  | Some b => appendChild (createAudioControls audioFileURL b)
  | None => ret tt
  end.

Fixpoint forOf (files : list string) : M unit :=
  match files with
  | [] => ret tt
  | audioFileURL :: rest => loadOne audioFileURL ;;; forOf rest
  end.

(** The [DOMContentLoaded] listener, for a list of files. *)
Definition onDOMContentLoaded (files : list string) : completion unit * page :=
  forOf files createAudioContext.

(** The buffer a file decodes to, when its fetch, its body and its decoding
    all succeed. *)
Definition decodes (url : string) : option AudioBuffer :=
  match network url with
  | Response (Bytes d) =>
      match decoder d with
      | Normal b => Some b
      | Throw _ => None
      end
  | _ => None
  end.

(** The controls a file contributes to the panel. *)
Definition controls_of (url : string) : list audioControl :=
  match decodes url with
  | Some b => [createAudioControls url b]
  | None => []
  end.

(** The effects of loading one file on its own. *)
Definition effects_of (url : string) : list effect :=
  effects (snd (loadOne url createAudioContext)).
End Loading.

(** The page after the listed clicks on the freshly loaded panel. *)
Definition session (network : string -> reply) (decoder : list Z -> completion AudioBuffer)
  (files : list string) (es : list click) : completion unit * page :=
  clicks es (snd (onDOMContentLoaded network decoder files)).

(** The node the control holds, if any, has been started. *)
Definition holds_started_node (p : page) (c : audioControl) : Prop :=
  match sourceNode c with
  | Some n => exists x, nth_error (nodes p) n = Some x /\ startCalled x = true
  | None => True
  end.

(** The two buttons of a control are never both enabled or both disabled,
    and the node it holds has been started. *)
Definition control_ok (p : page) (c : audioControl) : Prop :=
  stopDisabled c = negb (playDisabled c) /\ holds_started_node p c.

Definition well_formed (p : page) : Prop := Forall (control_ok p) (audioControls p).

(** The page a permitted Play click on the [i]-th control [c] leads to. *)
Definition playing (p : page) (i : nat) (c : audioControl) : page :=
  mkPage (nodes p ++ [mkSource (Some (audioBuffer c)) true true false])
         (modify i (fun _ => mkControl (fileName c) (audioBuffer c) true false
                                       (Some (length (nodes p))))
                 (audioControls p))
         (effects p).

(** The page a permitted Stop click on the [i]-th control [c] leads to. *)
Definition stopped (p : page) (i : nat) (c : audioControl) : page :=
  mkPage (match sourceNode c with
          | Some n =>
              modify n (fun x => mkSource (buffer x) (connected x) (startCalled x) true)
                     (nodes p)
          | None => nodes p
          end)
         (modify i (fun _ => mkControl (fileName c) (audioBuffer c) false true
                                       (sourceNode c))
                 (audioControls p))
         (effects p).

(** *** Reading the trace *)

(** The URLs fetched, in order. *)
Definition fetched (tr : list effect) : list string :=
  flat_map (fun e => match e with FetchCall url => [url] | _ => [] end) tr.

(** The labels of the controls appended to the panel, in order. *)
Definition appended (tr : list effect) : list string :=
  flat_map (fun e => match e with AppendChild f => [f] | _ => [] end) tr.

(** How many errors were written to the console. *)
Definition errors (tr : list effect) : nat :=
  length (filter (fun e => match e with ConsoleError _ => true | _ => false end) tr).

(** *** Nodes and the controls that hold them *)

(** Every control that refers to a node refers to a node of the context,
    which is stopped exactly when the control's Play button is enabled; no
    two controls refer to the same node; and a node that is not stopped is
    referred to by a control. *)
Definition tracked (p : page) : Prop :=
  (forall i c n,
      nth_error (audioControls p) i = Some c -> sourceNode c = Some n ->
      exists x, nth_error (nodes p) n = Some x
                /\ stopCalled x = negb (playDisabled c))
  /\ (forall i j ci cj n,
        nth_error (audioControls p) i = Some ci ->
        nth_error (audioControls p) j = Some cj ->
        sourceNode ci = Some n -> sourceNode cj = Some n -> i = j)
  /\ (forall n x,
        nth_error (nodes p) n = Some x -> stopCalled x = false ->
        exists i c, nth_error (audioControls p) i = Some c
                    /\ sourceNode c = Some n).

End Page2.

(** * Properties of page1.js *)

Module PostsTheory.
Import Page1.

(** ** Strings under [<=?] *)

Lemma ascii_compare_lt_trans (a b c : ascii) :
  Ascii.compare a b = Lt -> Ascii.compare b c = Lt -> Ascii.compare a c = Lt.
Proof.
  unfold Ascii.compare. rewrite !N.compare_lt_iff. lia.
Qed.

Lemma string_compare_lt_trans :
  forall a b c : string,
    (a ?= b)%string = Lt -> (b ?= c)%string = Lt -> (a ?= c)%string = Lt.
Proof.
  induction a as [|x a IH]; intros [|y b] [|z c]; simpl; try discriminate; auto.
  destruct (Ascii.compare x y) eqn:Exy; try discriminate;
    destruct (Ascii.compare y z) eqn:Eyz; try discriminate; intros Hab Hbc.
  - apply Ascii.compare_eq_iff in Exy, Eyz. subst.
    rewrite (proj2 (N.compare_eq_iff _ _) eq_refl : Ascii.compare z z = Eq).
    eauto.
  - apply Ascii.compare_eq_iff in Exy. subst. now rewrite Eyz.
  - apply Ascii.compare_eq_iff in Eyz. subst. now rewrite Exy.
  - now rewrite (ascii_compare_lt_trans _ _ _ Exy Eyz).
Qed.

Lemma string_leb_trans (a b c : string) :
  (a <=? b)%string = true -> (b <=? c)%string = true -> (a <=? c)%string = true.
Proof.
  unfold String.leb.
  destruct (a ?= b)%string eqn:Eab; try discriminate;
    destruct (b ?= c)%string eqn:Ebc; try discriminate; intros _ _.
  - apply String.compare_eq_iff in Eab. subst. now rewrite Ebc.
  - apply String.compare_eq_iff in Eab. subst. now rewrite Ebc.
  - apply String.compare_eq_iff in Ebc. subst. now rewrite Eab.
  - now rewrite (string_compare_lt_trans _ _ _ Eab Ebc).
Qed.

Lemma string_ltb_false_leb (a b : string) :
  (a <? b)%string = false -> (b <=? a)%string = true.
Proof.
  unfold String.ltb, String.leb. rewrite (String.compare_antisym a b).
  now destruct (b ?= a)%string.
Qed.

Lemma string_ltb_true_leb (a b : string) :
  (a <? b)%string = true -> (a <=? b)%string = true.
Proof.
  unfold String.ltb, String.leb. now destruct (a ?= b)%string.
Qed.

(** ** The comparator *)

Lemma compareTitles_nonpos (a b : post) :
  (compareTitles a b <=? 0) = true -> title_ge a b.
Proof.
  unfold compareTitles, title_ge.
  destruct (title a <? title b)%string eqn:E; [discriminate|].
  intros _. now apply string_ltb_false_leb.
Qed.

Lemma compareTitles_pos (a b : post) :
  (compareTitles a b <=? 0) = false -> title_ge b a.
Proof.
  unfold compareTitles, title_ge.
  destruct (title a <? title b)%string eqn:E.
  - intros _. now apply string_ltb_true_leb.
  - destruct (title b <? title a)%string; discriminate.
Qed.

Lemma title_ge_trans (a b c : post) : title_ge a b -> title_ge b c -> title_ge a c.
Proof. unfold title_ge. intros H1 H2. exact (string_leb_trans _ _ _ H2 H1). Qed.

(** ** [Array.prototype.sort] with [compareTitles] *)

Lemma sort_insert_perm {A : Type} (cmp : A -> A -> Z) (x : A) (l : list A) :
  Permutation (Js.sort_insert cmp x l) (x :: l).
Proof.
  induction l as [|y l IH]; simpl; [reflexivity|].
  destruct (cmp x y <=? 0); [reflexivity|].
  rewrite IH. apply perm_swap.
Qed.

Lemma sort_perm {A : Type} (cmp : A -> A -> Z) (l : list A) :
  Permutation (Js.sort cmp l) l.
Proof.
  induction l as [|x l IH]; simpl; [reflexivity|].
  rewrite sort_insert_perm. now constructor.
Qed.

Lemma sort_insert_sorted (x : post) (l : list post) :
  StronglySorted title_ge l ->
  StronglySorted title_ge (Js.sort_insert compareTitles x l).
Proof.
  induction 1 as [|y l Hl IH Hy]; simpl.
  - repeat constructor.
  - destruct (compareTitles x y <=? 0) eqn:E.
    + apply compareTitles_nonpos in E.
      constructor; [now constructor|].
      constructor; [exact E|].
      eapply Forall_impl; [|exact Hy]. intros z Hz. eapply title_ge_trans; eauto.
    + apply compareTitles_pos in E.
      constructor; [exact IH|].
      rewrite (sort_insert_perm compareTitles x l). now constructor.
Qed.

Lemma sort_sorted (l : list post) :
  StronglySorted title_ge (Js.sort compareTitles l).
Proof.
  induction l as [|x l IH]; simpl; [constructor|].
  now apply sort_insert_sorted.
Qed.

(** Two descending arrangements of the same records, whose titles are
    pairwise distinct, coincide. *)
Lemma sorted_unique :
  forall l1 l2 : list post,
    StronglySorted title_ge l1 -> StronglySorted title_ge l2 ->
    Permutation l1 l2 -> NoDup (map title l1) -> l1 = l2.
Proof.
  induction l1 as [|a l1 IH]; intros l2 H1 H2 HP HN.
  - apply Permutation_nil in HP. now subst.
  - destruct l2 as [|b l2].
    + apply Permutation_sym, Permutation_nil in HP. discriminate.
    + assert (a = b) as ->.
      { assert (Ha : In a (b :: l2)) by (eapply Permutation_in; [exact HP|now left]).
        assert (Hb : In b (a :: l1))
          by (eapply Permutation_in; [apply Permutation_sym; exact HP|now left]).
        destruct Ha as [Ha|Ha]; [now subst|].
        destruct Hb as [Hb|Hb]; [now subst|].
        inversion H1 as [|? ? _ F1]; subst. inversion H2 as [|? ? _ F2]; subst.
        rewrite Forall_forall in F1, F2.
        specialize (F1 _ Hb). specialize (F2 _ Ha). unfold title_ge in F1, F2.
        pose proof (String.leb_antisym _ _ F1 F2) as Heq.
        inversion HN as [|? ? Hnin _]; subst.
        exfalso. apply Hnin. rewrite <- Heq. now apply in_map. }
      f_equal.
      inversion H1; subst. inversion H2; subst. inversion HN; subst.
      apply IH; auto. eapply Permutation_cons_inv; eauto.
Qed.

Lemma sort_unique (l l' : list post) :
  Permutation l l' -> NoDup (map title l) ->
  Js.sort compareTitles l = Js.sort compareTitles l'.
Proof.
  intros HP HN. apply sorted_unique; try apply sort_sorted.
  - now rewrite !sort_perm.
  - eapply Permutation_NoDup; [|exact HN].
    apply Permutation_map, Permutation_sym, sort_perm.
Qed.

(** ** [sortPosts] *)

Lemma sortPosts_desc_is_reversed_asc (l : list post) :
  sortPosts l desc = rev (sortPosts l asc).
Proof. reflexivity. Qed.

(** With [dir = "asc"] the titles come out in descending order. *)
Lemma sortPosts_asc_descending (l : list post) :
  StronglySorted title_ge (sortPosts l asc).
Proof. apply sort_sorted. Qed.

Lemma StronglySorted_snoc {A : Type} (R : A -> A -> Prop) (l : list A) (x : A) :
  StronglySorted R l -> Forall (fun y => R y x) l -> StronglySorted R (l ++ [x]).
Proof.
  induction 1 as [|y l Hl IH Hy]; simpl; intros HF.
  - repeat constructor.
  - inversion HF; subst. constructor; [now apply IH|].
    apply Forall_app. split; [exact Hy|now constructor].
Qed.

Lemma StronglySorted_rev {A : Type} (R : A -> A -> Prop) (l : list A) :
  StronglySorted R l -> StronglySorted (fun a b => R b a) (rev l).
Proof.
  induction 1 as [|x l Hl IH Hx]; simpl; [constructor|].
  apply StronglySorted_snoc; [exact IH|].
  now apply Forall_rev.
Qed.

(** With [dir = "desc"] the titles come out in ascending order. *)
Lemma sortPosts_desc_ascending (l : list post) :
  StronglySorted title_le (sortPosts l desc).
Proof.
  unfold sortPosts, Js.reverse.
  exact (StronglySorted_rev title_ge _ (sort_sorted l)).
Qed.

Lemma sortPosts_perm (l : list post) (dir : direction) :
  Permutation (sortPosts l dir) l.
Proof.
  destruct dir; unfold sortPosts, Js.reverse.
  - apply sort_perm.
  - rewrite <- Permutation_rev. apply sort_perm.
Qed.

(** ** [sortAndRenderPosts] on a page that has posts *)

Lemma sortAndRenderPosts_nonempty (network : nat -> option string -> reply) (s : page) :
  posts s <> [] ->
  sortAndRenderPosts network s =
    (Normal tt,
     mkPage (sortPosts (posts s) (toggled (sortDirection s)))
            (Some (toggled (sortDirection s)))
            (requests s) (console s)
            (renders s ++ [sortPosts (posts s) (toggled (sortDirection s))])
            (map (fun p => buildPostElement (id p) (userId p) (title p) (body p))
                 (sortPosts (posts s) (toggled (sortDirection s))))).
Proof.
  destruct s as [ps d rq co rn el]; simpl. intros Hne.
  destruct ps as [|p ps]; [congruence|].
  destruct d as [[|]|]; reflexivity.
Qed.

Lemma sortPosts_unique (l l' : list post) (dir : direction) :
  Permutation l l' -> NoDup (map title l) -> sortPosts l dir = sortPosts l' dir.
Proof.
  intros HP HN. unfold sortPosts. now rewrite (sort_unique l l' HP HN).
Qed.

Lemma toggled_twice (d : direction) : toggled (Some (toggled (Some d))) = d.
Proof. now destruct d. Qed.

(** Once [sortAndRenderPosts] has run, the posts are in the order of the
    direction flag. *)
Lemma sorted_after_sortAndRenderPosts
  (network : nat -> option string -> reply) (s : page) :
  posts s <> [] -> NoDup (map title (posts s)) ->
  let s1 := snd (sortAndRenderPosts network s) in
  exists d, sortDirection s1 = Some d /\ posts s1 = sortPosts (posts s1) d
            /\ posts s1 <> [] /\ NoDup (map title (posts s1)).
Proof.
  intros Hne HN. rewrite (sortAndRenderPosts_nonempty network s Hne). simpl.
  exists (toggled (sortDirection s)).
  assert (HP : Permutation (sortPosts (posts s) (toggled (sortDirection s))) (posts s))
    by apply sortPosts_perm.
  assert (HN' : NoDup (map title (sortPosts (posts s) (toggled (sortDirection s))))).
  { eapply Permutation_NoDup; [|exact HN].
    apply Permutation_map, Permutation_sym, HP. }
  repeat split; auto.
  - symmetry. now apply sortPosts_unique.
  - intros E. rewrite E in HP. apply Permutation_nil in HP. auto.
Qed.

(** C1.  [sortPosts] with direction ["asc"] does not put the titles in
    ascending order: the comparator returns [1] when [a.title < b.title], so
    B, A, C comes out as C, B, A, and it is direction ["desc"], the reverse
    of that result, which yields A, B, C.  The same is seen through
    [sortAndRenderPosts]: the first call sets ["asc"] and shows C, B, A, the
    second sets ["desc"] and shows A, B, C. *)
Theorem sortPosts_asc_puts_titles_in_descending_order :
  map title (sortPosts B_A_C asc) = ["C"; "B"; "A"]%string
  /\ map title (sortPosts B_A_C desc) = ["A"; "B"; "C"]%string
  /\ (forall network : nat -> option string -> reply,
        let s0 := mkPage B_A_C None [] [] [] [] in
        let s1 := snd (sortAndRenderPosts network s0) in
        let s2 := snd (sortAndRenderPosts network s1) in
        sortDirection s1 = Some asc
        /\ map title_text (rootElement s1) = ["C"; "B"; "A"]%string
        /\ sortDirection s2 = Some desc
        /\ map title_text (rootElement s2) = ["A"; "B"; "C"]%string).
Proof.
  repeat split; reflexivity.
Qed.

(** C9.  Whatever the direction, [sortPosts] returns a permutation of its
    input: the multiset of records is unchanged. *)
Theorem sortPosts_permutes_its_input (l : list post) (dir : direction) :
  Permutation l (sortPosts l dir).
Proof.
  apply Permutation_sym, sortPosts_perm.
Qed.

(** C5, as stated, fails: two calls of [sortAndRenderPosts] on B, A, C leave
    A, B, C, not the ordering the page started from. *)
Lemma sort_twice_does_not_restore_the_ordering :
  ~ (forall (network : nat -> option string -> reply) (s : page),
        posts s <> [] -> NoDup (map title (posts s)) ->
        posts (snd (sortAndRenderPosts network (snd (sortAndRenderPosts network s))))
        = posts s).
Proof.
  intros H.
  specialize (H (fun _ _ => Rejected "offline"%string) (mkPage B_A_C None [] [] [] [])).
  simpl in H.
  assert (Hne : B_A_C <> []) by discriminate.
  assert (HN : NoDup (map title B_A_C)).
  { repeat constructor; simpl; intuition discriminate. }
  specialize (H Hne HN). vm_compute in H. discriminate.
Qed.

(** C5, amended.  When the posts, non-empty and without duplicate titles,
    are already in the order [sortPosts] gives them for the current
    direction flag, two calls of [sortAndRenderPosts] in succession return
    them to the ordering they had, and the flag to its value. *)
Theorem sort_twice_restores_a_sorted_ordering
  (network : nat -> option string -> reply) (s : page) (d : direction) :
  posts s <> [] ->
  NoDup (map title (posts s)) ->
  sortDirection s = Some d ->
  posts s = sortPosts (posts s) d ->
  let s2 := snd (sortAndRenderPosts network (snd (sortAndRenderPosts network s))) in
  posts s2 = posts s /\ sortDirection s2 = sortDirection s.
Proof.
  intros Hne HN Hd Hs.
  destruct (sorted_after_sortAndRenderPosts network s Hne HN) as (d1 & Hd1 & _ & Hne1 & _).
  cbv zeta in *.
  rewrite (sortAndRenderPosts_nonempty network _ Hne1).
  rewrite (sortAndRenderPosts_nonempty network s Hne) in *.
  cbn [snd posts sortDirection] in *. rewrite Hd, toggled_twice.
  split; [|reflexivity].
  transitivity (sortPosts (posts s) d); [|now symmetry].
  symmetry. apply sortPosts_unique; [|exact HN].
  apply Permutation_sym, sortPosts_perm.
Qed.

Lemma sort_twice_restores_a_sorted_ordering_witness :
  let s := mkPage (sortPosts B_A_C desc) (Some desc) [] [] [] [] in
  let s2 := snd (sortAndRenderPosts (fun _ _ => Rejected "offline"%string)
                   (snd (sortAndRenderPosts (fun _ _ => Rejected "offline"%string) s))) in
  posts s2 = posts s /\ sortDirection s2 = sortDirection s.
Proof.
  apply (sort_twice_restores_a_sorted_ordering
           (fun _ _ => Rejected "offline"%string)
           (mkPage (sortPosts B_A_C desc) (Some desc) [] [] [] []) desc).
  - vm_compute. discriminate.
  - vm_compute. repeat constructor; simpl; intuition discriminate.
  - reflexivity.
  - vm_compute. reflexivity.
Defined.

(** ** Objects keyed by integers *)

Section ObjectFacts.
Context {V : Type}.
Implicit Types (o : Js.object V) (k : Z) (v : V).

Lemma get_notin o k : ~ In k (map fst o) -> Js.get o k = None.
Proof.
  induction o as [|[k' v'] o IH]; simpl; [reflexivity|]. intros H.
  destruct (Z.eqb_spec k' k); [tauto|]. apply IH. tauto.
Qed.

Lemma set_notin o k v : ~ In k (map fst o) -> Js.set o k v = o ++ [(k, v)].
Proof.
  induction o as [|[k' v'] o IH]; simpl; [reflexivity|]. intros H.
  destruct (Z.eqb_spec k' k); [tauto|]. rewrite IH; tauto.
Qed.

Lemma get_snoc o k v : ~ In k (map fst o) -> Js.get (o ++ [(k, v)]) k = Some v.
Proof.
  induction o as [|[k' v'] o IH]; simpl; intros H.
  - now rewrite Z.eqb_refl.
  - destruct (Z.eqb_spec k' k); [tauto|]. apply IH. tauto.
Qed.

Lemma set_snoc o k v v' :
  ~ In k (map fst o) -> Js.set (o ++ [(k, v)]) k v' = o ++ [(k, v')].
Proof.
  induction o as [|[k0 v0] o IH]; simpl; intros H.
  - now rewrite Z.eqb_refl.
  - destruct (Z.eqb_spec k0 k); [tauto|]. rewrite IH; tauto.
Qed.

Lemma get_map_in (f : Z -> V) (ks : list Z) k :
  In k ks -> Js.get (map (fun k' => (k', f k')) ks) k = Some (f k).
Proof.
  induction ks as [|k' ks IH]; simpl; [tauto|]. intros H.
  destruct (Z.eqb_spec k' k); [now subst|]. apply IH. destruct H; tauto.
Qed.

Lemma set_map_in (f : Z -> V) (ks : list Z) k v :
  NoDup ks -> In k ks ->
  Js.set (map (fun k' => (k', f k')) ks) k v
  = map (fun k' => (k', if k' =? k then v else f k')) ks.
Proof.
  induction ks as [|k' ks IH]; simpl; [tauto|]. intros HN H.
  inversion HN as [|? ? Hnin HN']; subst.
  destruct (Z.eqb_spec k' k) as [->|Hne].
  - f_equal. apply map_ext_in. intros k1 Hk1.
    destruct (Z.eqb_spec k1 k); [now subst|reflexivity].
  - f_equal. apply IH; [exact HN'|]. destruct H; tauto.
Qed.

Lemma insert_key_perm (e : Z * V) o : Permutation (Js.insert_key e o) (e :: o).
Proof.
  induction o as [|e' o IH]; simpl; [reflexivity|].
  destruct (fst e <=? fst e'); [reflexivity|].
  rewrite IH. apply perm_swap.
Qed.

Lemma ascending_perm o : Permutation (Js.ascending o) o.
Proof.
  induction o as [|e o IH]; simpl; [reflexivity|].
  rewrite insert_key_perm. now constructor.
Qed.

Lemma insert_key_sorted (e : Z * V) o :
  StronglySorted (fun a b => fst a <= fst b) o ->
  StronglySorted (fun a b => fst a <= fst b) (Js.insert_key e o).
Proof.
  induction 1 as [|e' o Ho IH He']; simpl.
  - repeat constructor.
  - destruct (Z.leb_spec (fst e) (fst e')).
    + constructor; [now constructor|]. constructor; [assumption|].
      eapply Forall_impl; [|exact He']. simpl. intros. lia.
    + constructor; [exact IH|].
      rewrite (insert_key_perm e o). constructor; [lia|assumption].
Qed.

Lemma ascending_sorted o :
  StronglySorted (fun a b => fst a <= fst b) (Js.ascending o).
Proof.
  induction o as [|e o IH]; simpl; [constructor|]. now apply insert_key_sorted.
Qed.

Lemma filter_split {A : Type} (p : A -> bool) (l : list A) :
  Permutation (filter p l ++ filter (fun x => negb (p x)) l) l.
Proof.
  induction l as [|x l IH]; simpl; [reflexivity|].
  destruct (p x); simpl.
  - now constructor.
  - rewrite <- Permutation_middle. now constructor.
Qed.

Lemma own_properties_perm o : Permutation (Js.own_properties o) o.
Proof.
  unfold Js.own_properties. rewrite ascending_perm.
  apply (filter_split (fun e => Js.is_array_index (fst e))).
Qed.

Lemma map_fst_filter (p : Z -> bool) o :
  map fst (filter (fun e => p (fst e)) o) = filter p (map fst o).
Proof.
  induction o as [|e o IH]; simpl; [reflexivity|].
  destruct (p (fst e)); simpl; now rewrite IH.
Qed.

End ObjectFacts.

(** ** First occurrences *)

Lemma first_seen_In (ks : list Z) (k : Z) : In k (first_seen ks) <-> In k ks.
Proof.
  induction ks as [|a ks IH]; simpl; [tauto|].
  rewrite filter_In, IH, negb_true_iff, Z.eqb_neq.
  destruct (Z.eq_dec a k); intuition congruence.
Qed.

Lemma first_seen_NoDup (ks : list Z) : NoDup (first_seen ks).
Proof.
  induction ks as [|a ks IH]; simpl; constructor.
  - rewrite filter_In, negb_true_iff, Z.eqb_neq. tauto.
  - now apply NoDup_filter.
Qed.

Lemma first_seen_snoc_new (ks : list Z) (k : Z) :
  ~ In k ks -> first_seen (ks ++ [k]) = first_seen ks ++ [k].
Proof.
  induction ks as [|a ks IH]; simpl; intros H; [reflexivity|].
  rewrite IH by tauto. rewrite filter_app. simpl.
  destruct (Z.eqb_spec k a); [subst; tauto|reflexivity].
Qed.

Lemma first_seen_snoc_old (ks : list Z) (k : Z) :
  In k ks -> first_seen (ks ++ [k]) = first_seen ks.
Proof.
  induction ks as [|a ks IH]; simpl; intros H; [tauto|].
  destruct (in_dec Z.eq_dec k ks) as [Hin|Hnin].
  - now rewrite IH.
  - destruct H as [->|H]; [|tauto].
    rewrite first_seen_snoc_new by assumption.
    rewrite filter_app. simpl. rewrite Z.eqb_refl. simpl. now rewrite app_nil_r.
Qed.

(** ** The records of one user *)

Lemma members_app (k : Z) (l1 l2 : list post) :
  members k (l1 ++ l2) = members k l1 ++ members k l2.
Proof. apply filter_app. Qed.

Lemma members_userId (k : Z) (l : list post) :
  Forall (fun p => userId p = k) (members k l).
Proof.
  apply Forall_forall. intros p Hp. apply filter_In in Hp.
  now apply Z.eqb_eq.
Qed.

Lemma members_none (k : Z) (l : list post) :
  Forall (fun p => userId p <> k) l -> members k l = [].
Proof.
  induction 1 as [|p l Hp _ IH]; simpl; [reflexivity|].
  destruct (Z.eqb_spec (userId p) k); [contradiction|exact IH].
Qed.

Lemma members_all (k : Z) (l : list post) :
  Forall (fun p => userId p = k) l -> members k l = l.
Proof.
  induction 1 as [|p l Hp _ IH]; simpl; [reflexivity|].
  destruct (Z.eqb_spec (userId p) k); [now rewrite IH|congruence].
Qed.

Lemma members_absent (k : Z) (l : list post) :
  ~ In k (map userId l) -> members k l = [].
Proof.
  intros H. apply members_none, Forall_forall. intros p Hp E.
  apply H. rewrite <- E. now apply in_map.
Qed.

(** ** The accumulator of [groupByUser] *)

Lemma groupStep_grouped_of (l : list post) (x : post) :
  groupStep (grouped_of l) x = grouped_of (l ++ [x]).
Proof.
  unfold groupStep, grouped_of. rewrite map_app. simpl.
  set (k := userId x). set (ks := map userId l).
  destruct (in_dec Z.eq_dec k ks) as [Hin|Hnin].
  - assert (Hfs : In k (first_seen ks)) by now apply first_seen_In.
    rewrite (get_map_in (fun k' => members k' l) _ _ Hfs).
    rewrite (get_map_in (fun k' => members k' l) _ _ Hfs).
    rewrite (set_map_in (fun k' => members k' l) _ _ _ (first_seen_NoDup ks) Hfs).
    rewrite first_seen_snoc_old by assumption.
    apply map_ext. intros k'. f_equal. rewrite members_app. simpl. fold k.
    rewrite (Z.eqb_sym k k').
    destruct (Z.eqb_spec k' k); [now subst|now rewrite app_nil_r].
  - assert (Hfs : ~ In k (map fst (map (fun k' => (k', members k' l)) (first_seen ks)))).
    { rewrite map_map. simpl. rewrite map_id. now rewrite first_seen_In. }
    rewrite (get_notin _ _ Hfs), (set_notin _ _ _ Hfs), (get_snoc _ _ _ Hfs).
    rewrite (set_snoc _ _ _ _ Hfs).
    rewrite first_seen_snoc_new by assumption. rewrite map_app. simpl.
    f_equal.
    + apply map_ext_in. intros k' Hk'. f_equal. rewrite members_app. simpl. fold k.
      destruct (Z.eqb_spec k k') as [E|_]; [|now rewrite app_nil_r].
      exfalso. apply Hnin. apply first_seen_In. now rewrite E.
    + rewrite members_app. simpl. fold k. rewrite Z.eqb_refl.
      now rewrite (members_absent k l Hnin).
Qed.

Lemma fold_groupStep (l l0 : list post) :
  fold_left groupStep l (grouped_of l0) = grouped_of (l0 ++ l).
Proof.
  revert l0. induction l as [|x l IH]; intros l0; simpl.
  - now rewrite app_nil_r.
  - rewrite groupStep_grouped_of, IH. now rewrite <- app_assoc.
Qed.

(** The user ids in the order in which [Object.values] lists their groups. *)
Lemma groupByUser_blocks (l : list post) :
  groupByUser l
  = flat_map (fun k => members k l) (map fst (Js.own_properties (grouped_of l))).
Proof.
  unfold groupByUser, Js.flat, Js.values.
  change (@nil (Z * list post)) with (grouped_of []).
  rewrite fold_groupStep. simpl.
  rewrite flat_map_concat_map, map_map. f_equal.
  apply map_ext_in. intros [k v] He. simpl.
  apply (Permutation_in _ (own_properties_perm (grouped_of l))) in He.
  unfold grouped_of in He. apply in_map_iff in He.
  destruct He as (k' & E & _). now inversion E.
Qed.

(** ** Blocks, one per user *)

Lemma block_prefix (k : Z) :
  forall (l2 blk rest l3 : list post) (b : post),
    l2 ++ b :: l3 = blk ++ rest ->
    userId b = k ->
    Forall (fun p => userId p = k) blk ->
    Forall (fun p => userId p <> k) rest ->
    Forall (fun p => userId p = k) l2.
Proof.
  induction l2 as [|c l2 IH]; intros blk rest l3 b E Hb Hblk Hrest; [constructor|].
  destruct blk as [|c' blk]; simpl in E.
  - exfalso. rewrite Forall_forall in Hrest. apply (Hrest b); [|exact Hb].
    rewrite <- E. apply in_cons, in_or_app. right. now left.
  - inversion E; subst c'. inversion Hblk; subst.
    constructor; [assumption|]. eapply IH; eauto.
Qed.

Lemma contiguous_block (k : Z) (blk rest : list post) :
  Forall (fun p => userId p = k) blk ->
  Forall (fun p => userId p <> k) rest ->
  contiguous rest ->
  contiguous (blk ++ rest).
Proof.
  intros Hblk Hrest Hc. induction Hblk as [|x blk Hx Hblk IH]; [exact Hc|].
  intros l1 a l2 b l3 E Hab. destruct l1 as [|y l1]; simpl in E.
  - inversion E as [[Ea E']]. subst a. rewrite Hx.
    apply (block_prefix k l2 blk rest l3 b);
      [now symmetry|congruence|assumption|assumption].
  - inversion E as [[Ey E']]. eapply IH; eauto.
Qed.

Lemma members_of_others (l : list post) (k : Z) (ks : list Z) :
  ~ In k ks ->
  Forall (fun p => userId p <> k) (flat_map (fun k' => members k' l) ks).
Proof.
  intros Hnin. apply Forall_forall. intros p Hp E.
  apply in_flat_map in Hp. destruct Hp as (k' & Hk' & Hp).
  apply filter_In in Hp. destruct Hp as [_ Hp]. apply Z.eqb_eq in Hp.
  apply Hnin. congruence.
Qed.

Lemma contiguous_blocks (l : list post) (ks : list Z) :
  NoDup ks -> contiguous (flat_map (fun k => members k l) ks).
Proof.
  induction 1 as [|k ks Hnin HN IH]; simpl.
  - intros l1 a l2 b l3 E. destruct l1; discriminate.
  - apply (contiguous_block k); [apply members_userId| |exact IH].
    now apply members_of_others.
Qed.

Lemma members_blocks_absent (l : list post) (k : Z) (ks : list Z) :
  ~ In k ks -> members k (flat_map (fun k' => members k' l) ks) = [].
Proof.
  intros H. now apply members_none, members_of_others.
Qed.

Lemma members_members (l : list post) (k : Z) : members k (members k l) = members k l.
Proof. apply members_all, members_userId. Qed.

Lemma members_blocks (l : list post) (k : Z) (ks : list Z) :
  NoDup ks -> In k ks ->
  members k (flat_map (fun k' => members k' l) ks) = members k l.
Proof.
  induction 1 as [|k' ks Hnin HN IH]; simpl; [tauto|]. intros [->|Hin].
  - rewrite members_app, members_members, members_blocks_absent by assumption.
    apply app_nil_r.
  - rewrite members_app, IH by assumption.
    rewrite members_none; [reflexivity|].
    eapply Forall_impl; [|apply members_userId]. simpl. intros p Hp. congruence.
Qed.

Lemma blocks_perm (l : list post) (ks : list Z) :
  NoDup ks ->
  Permutation (flat_map (fun k => members k l) ks)
              (filter (fun p => existsb (Z.eqb (userId p)) ks) l).
Proof.
  induction 1 as [|k ks Hnin HN IH]; simpl.
  - induction l; simpl; auto.
  - rewrite IH. clear IH. induction l as [|p l IHl]; simpl; [reflexivity|].
    destruct (Z.eqb_spec (userId p) k) as [E|E]; simpl.
    + replace (existsb (Z.eqb (userId p)) ks) with false.
      * now constructor.
      * symmetry. apply not_true_is_false. intros Hex.
        apply existsb_exists in Hex. destruct Hex as (k' & Hk' & Hk).
        apply Z.eqb_eq in Hk. congruence.
    + destruct (existsb (Z.eqb (userId p)) ks); [|exact IHl].
      rewrite <- Permutation_middle. now constructor.
Qed.

Lemma group_keys_perm (l : list post) :
  Permutation (map fst (Js.own_properties (grouped_of l))) (first_seen (map userId l)).
Proof.
  rewrite (own_properties_perm (grouped_of l)). unfold grouped_of.
  rewrite map_map. simpl. now rewrite map_id.
Qed.

Lemma group_keys_NoDup (l : list post) :
  NoDup (map fst (Js.own_properties (grouped_of l))).
Proof.
  eapply Permutation_NoDup; [apply Permutation_sym, group_keys_perm|].
  apply first_seen_NoDup.
Qed.

Lemma group_keys_In (l : list post) (k : Z) :
  In k (map fst (Js.own_properties (grouped_of l))) <-> In k (map userId l).
Proof.
  rewrite <- (first_seen_In (map userId l)). split; apply Permutation_in.
  - apply group_keys_perm.
  - apply Permutation_sym, group_keys_perm.
Qed.

Lemma StronglySorted_map_fst {V : Type} (o : Js.object V) :
  StronglySorted (fun a b => fst a <= fst b) o -> StronglySorted Z.le (map fst o).
Proof.
  induction 1 as [|e o Ho IH He]; simpl; constructor; [exact IH|].
  now apply Forall_map.
Qed.

Lemma StronglySorted_strict (ks : list Z) :
  StronglySorted Z.le ks -> NoDup ks -> StronglySorted Z.lt ks.
Proof.
  induction 1 as [|k ks Hks IH Hk]; intros HN; constructor;
    inversion HN as [|? ? Hnin HN']; subst; [now apply IH|].
  rewrite Forall_forall in *. intros k' Hk'. specialize (Hk _ Hk').
  assert (k <> k') by (intros ->; contradiction). lia.
Qed.

Lemma group_keys_split (l : list post) :
  exists indices,
    StronglySorted Z.lt indices
    /\ Permutation indices (filter Js.is_array_index (first_seen (map userId l)))
    /\ map fst (Js.own_properties (grouped_of l))
       = indices ++ filter (fun k => negb (Js.is_array_index k))
                           (first_seen (map userId l)).
Proof.
  assert (Hkeys : map fst (grouped_of l) = first_seen (map userId l)).
  { unfold grouped_of. rewrite map_map. simpl. apply map_id. }
  exists (map fst (Js.ascending
                     (filter (fun e => Js.is_array_index (fst e)) (grouped_of l)))).
  assert (HP : Permutation
                 (map fst (Js.ascending
                    (filter (fun e => Js.is_array_index (fst e)) (grouped_of l))))
                 (filter Js.is_array_index (first_seen (map userId l)))).
  { rewrite ascending_perm, (map_fst_filter Js.is_array_index), Hkeys. reflexivity. }
  split; [|split].
  - apply StronglySorted_strict.
    + apply StronglySorted_map_fst, ascending_sorted.
    + eapply Permutation_NoDup; [apply Permutation_sym, HP|].
      apply NoDup_filter, first_seen_NoDup.
  - exact HP.
  - unfold Js.own_properties. rewrite map_app. f_equal.
    rewrite (map_fst_filter (fun k => negb (Js.is_array_index k))).
    now rewrite Hkeys.
Qed.

Lemma filter_all {A : Type} (p : A -> bool) (l : list A) :
  (forall x, In x l -> p x = true) -> filter p l = l.
Proof.
  induction l as [|x l IH]; simpl; intros H; [reflexivity|].
  rewrite (H x) by now left. f_equal. apply IH. intros y Hy. apply H. now right.
Qed.

(** C2, as stated, fails: for the users 2, 1, 2 the groups do not come out
    in the order in which the users are first met. *)
Lemma groupByUser_does_not_keep_first_seen_order :
  map userId (groupByUser two_one_two) <> [2; 2; 1].
Proof.
  vm_compute. discriminate.
Qed.

(** C2, amended.  In the output of [groupByUser] the records of one user
    are contiguous and keep the relative order they had in the input; the
    groups of the users whose id is an array index (an integer from 0 to
    2^32 - 2) come first, in ascending order of the id, and the groups of
    the other users follow in the order in which those users are first met
    in the input.  For the users 2, 1, 2 the output has the users
    1, 2, 2. *)
Theorem groupByUser_groups_indices_ascending_then_first_seen (l : list post) :
  contiguous (groupByUser l)
  /\ (forall k, members k (groupByUser l) = members k l)
  /\ (exists indices,
        StronglySorted Z.lt indices
        /\ Permutation indices (filter Js.is_array_index (first_seen (map userId l)))
        /\ groupByUser l
           = flat_map (fun k => members k l)
               (indices ++ filter (fun k => negb (Js.is_array_index k))
                                  (first_seen (map userId l))))
  /\ map userId (groupByUser two_one_two) = [1; 2; 2].
Proof.
  split; [|split; [|split]].
  - rewrite groupByUser_blocks. apply contiguous_blocks, group_keys_NoDup.
  - intros k. rewrite groupByUser_blocks.
    destruct (in_dec Z.eq_dec k (map fst (Js.own_properties (grouped_of l))))
      as [Hin|Hnin].
    + apply members_blocks; [apply group_keys_NoDup|exact Hin].
    + rewrite members_blocks_absent by exact Hnin.
      symmetry. apply members_absent. now rewrite <- group_keys_In.
  - destruct (group_keys_split l) as (indices & Hs & HP & E).
    exists indices. repeat split; try assumption.
    rewrite groupByUser_blocks. now rewrite E.
  - reflexivity.
Qed.

(** C10.  [groupByUser] returns a permutation of its input: every record
    appears exactly once in the output, none is added and none is dropped. *)
Theorem groupByUser_permutes_its_input (l : list post) :
  Permutation l (groupByUser l).
Proof.
  rewrite groupByUser_blocks, (blocks_perm l _ (group_keys_NoDup l)).
  rewrite filter_all; [reflexivity|].
  intros p Hp. apply existsb_exists. exists (userId p). split.
  - apply group_keys_In. now apply in_map.
  - apply Z.eqb_refl.
Qed.

(** ** Fetching *)

(** What [fetchPosts] hands back for a reply. *)
Lemma fetchPosts_spec (network : nat -> option string -> reply)
  (apiUrl : option string) (s : page) :
  fetchPosts network apiUrl s
  = match network (length (requests s)) apiUrl with
    | Response (JsonPosts ps) =>
        (Normal ps,
         mkPage (posts s) (sortDirection s) (requests s ++ [apiUrl]) (console s)
                (renders s) (rootElement s))
    | Response (InvalidJson err) | Rejected err =>
        (Normal [],
         mkPage (posts s) (sortDirection s) (requests s ++ [apiUrl])
                (console s ++ [err]) (renders s) (rootElement s))
    end.
Proof.
  unfold fetchPosts, try_catch, bind, fetch.
  destruct (network (length (requests s)) apiUrl) as [err|[err|ps]]; reflexivity.
Qed.

(** C3.  When the fetch rejects, or the body of the response is not JSON,
    [fetchAndRenderPosts] completes normally: the error is logged, the posts
    of the page become the empty array, and [render] is called on it, which
    empties the list on screen. *)
Theorem fetchAndRenderPosts_renders_nothing_on_failure
  (network : nat -> option string -> reply) (s : page) (apiUrl err : string) :
  network (length (requests s)) (Some apiUrl) = Rejected err
  \/ network (length (requests s)) (Some apiUrl) = Response (InvalidJson err) ->
  fetchAndRenderPosts network apiUrl s
  = (Normal tt,
     mkPage [] (sortDirection s) (requests s ++ [Some apiUrl])
            (console s ++ [err]) (renders s ++ [[]]) []).
Proof.
  intros H. unfold fetchAndRenderPosts, bind.
  rewrite fetchPosts_spec. destruct H as [-> | ->]; reflexivity.
Qed.

Lemma fetchAndRenderPosts_renders_nothing_on_failure_witness :
  fetchAndRenderPosts
    (fun n _ => match n with
                | O => Response (JsonPosts B_A_C)
                | _ => Response (InvalidJson "SyntaxError"%string)
                end)
    "/posts"%string
    (mkPage B_A_C (Some asc) [Some "/posts"%string] [] [B_A_C] [])
  = (Normal tt,
     mkPage [] (Some asc) [Some "/posts"; Some "/posts"]%string
            ["SyntaxError"%string] [B_A_C; []] []).
Proof.
  apply (fetchAndRenderPosts_renders_nothing_on_failure
           (fun n _ => match n with
                       | O => Response (JsonPosts B_A_C)
                       | _ => Response (InvalidJson "SyntaxError"%string)
                       end)
           (mkPage B_A_C (Some asc) [Some "/posts"%string] [] [B_A_C] [])
           "/posts"%string "SyntaxError"%string).
  right. reflexivity.
Defined.

(** What the implicit fetch of [sortAndRenderPosts] and [groupAndRenderPosts]
    brings back. *)
Lemma fetchIfEmpty_empty (network : nat -> option string -> reply) (s : page) :
  posts s = [] ->
  fetchIfEmpty network s
  = (Normal tt,
     let r := fetchPosts network None s in
     mkPage (match fst r with Normal ps => ps | Throw _ => [] end)
            (sortDirection s) (requests s ++ [None]) (console (snd r))
            (renders s) (rootElement s)).
Proof.
  intros H. unfold fetchIfEmpty, bind, get_posts. rewrite H.
  rewrite fetchPosts_spec.
  destruct (network (length (requests s)) None) as [err|[err|ps]]; reflexivity.
Qed.

(** C6.  On a page without posts, [sortAndRenderPosts] and
    [groupAndRenderPosts] do fetch before they sort or group, but the fetch
    is made with no argument at all: the request that is recorded is
    [undefined], whatever endpoint [fetchAndRenderPosts] was given before. *)
Theorem implicit_fetch_is_made_without_endpoint
  (network : nat -> option string -> reply) (s : page) :
  posts s = [] ->
  requests (snd (sortAndRenderPosts network s)) = requests s ++ [None]
  /\ requests (snd (groupAndRenderPosts network s)) = requests s ++ [None]
  /\ posts (snd (sortAndRenderPosts network s))
     = sortPosts (match fst (fetchPosts network None s) with
                  | Normal ps => ps
                  | Throw _ => []
                  end) (toggled (sortDirection s))
  /\ posts (snd (groupAndRenderPosts network s))
     = groupByUser (match fst (fetchPosts network None s) with
                    | Normal ps => ps
                    | Throw _ => []
                    end).
Proof.
  intros H.
  unfold sortAndRenderPosts, groupAndRenderPosts, bind.
  rewrite (fetchIfEmpty_empty network s H). cbv zeta.
  repeat split; reflexivity.
Qed.

Lemma implicit_fetch_is_made_without_endpoint_witness :
  let network := fun (n : nat) (url : option string) =>
                   match url with
                   | Some _ => Response (JsonPosts [])
                   | None => Rejected "TypeError"%string
                   end in
  let s := snd (fetchAndRenderPosts network "/posts"%string load) in
  requests (snd (sortAndRenderPosts network s)) = [Some "/posts"%string; None].
Proof.
  intros network s.
  exact (proj1 (implicit_fetch_is_made_without_endpoint network s eq_refl)).
Defined.

(** ** The public functions on any page *)

Lemma fetchIfEmpty_nonempty (network : nat -> option string -> reply) (s : page) :
  posts s <> [] -> fetchIfEmpty network s = (Normal tt, s).
Proof.
  intros H. unfold fetchIfEmpty, bind, get_posts.
  destruct (posts s); [congruence|reflexivity].
Qed.

Lemma sortAndRenderPosts_after_fetch (network : nat -> option string -> reply) (s : page) :
  sortAndRenderPosts network s
  = let s1 := snd (fetchIfEmpty network s) in
    let sorted := sortPosts (posts s1) (toggled (sortDirection s)) in
    (Normal tt,
     mkPage sorted (Some (toggled (sortDirection s))) (requests s1) (console s1)
            (renders s ++ [sorted]) (view_of sorted)).
Proof.
  assert (posts s = [] \/ posts s <> []) as [E|E]
    by (destruct (posts s); [left|right]; congruence).
  - unfold sortAndRenderPosts, bind. rewrite (fetchIfEmpty_empty network s E).
    reflexivity.
  - unfold sortAndRenderPosts, bind. rewrite (fetchIfEmpty_nonempty network s E).
    reflexivity.
Qed.

Lemma groupAndRenderPosts_after_fetch (network : nat -> option string -> reply) (s : page) :
  groupAndRenderPosts network s
  = let s1 := snd (fetchIfEmpty network s) in
    let grouped := groupByUser (posts s1) in
    (Normal tt,
     mkPage grouped (sortDirection s) (requests s1) (console s1)
            (renders s ++ [grouped]) (view_of grouped)).
Proof.
  assert (posts s = [] \/ posts s <> []) as [E|E]
    by (destruct (posts s); [left|right]; congruence).
  - unfold groupAndRenderPosts, bind. rewrite (fetchIfEmpty_empty network s E).
    reflexivity.
  - unfold groupAndRenderPosts, bind. rewrite (fetchIfEmpty_nonempty network s E).
    reflexivity.
Qed.

Lemma fetchAndRenderPosts_after_fetch (network : nat -> option string -> reply)
  (apiUrl : string) (s : page) :
  fetchAndRenderPosts network apiUrl s
  = let r := fetchPosts network (Some apiUrl) s in
    let ps := match fst r with Normal ps => ps | Throw _ => [] end in
    (Normal tt,
     mkPage ps (sortDirection s) (requests s ++ [Some apiUrl]) (console (snd r))
            (renders s ++ [ps]) (view_of ps)).
Proof.
  unfold fetchAndRenderPosts, bind. rewrite fetchPosts_spec.
  destruct (network (length (requests s)) (Some apiUrl)) as [err|[err|ps]]; reflexivity.
Qed.

Lemma groupByUser_perm (l : list post) : Permutation (groupByUser l) l.
Proof.
  rewrite groupByUser_blocks, (blocks_perm l _ (group_keys_NoDup l)).
  rewrite filter_all; [reflexivity|].
  intros p Hp. apply existsb_exists. exists (userId p). split.
  - apply group_keys_In. now apply in_map.
  - apply Z.eqb_refl.
Qed.

(** X2.  On a page that has posts, [sortAndRenderPosts] and
    [groupAndRenderPosts] make no request and write nothing to the console:
    they only rearrange the posts the page holds. *)
Theorem sort_and_group_work_offline_on_loaded_posts
  (network : nat -> option string -> reply) (s : page) :
  posts s <> [] ->
  let s1 := snd (sortAndRenderPosts network s) in
  let s2 := snd (groupAndRenderPosts network s) in
  requests s1 = requests s /\ console s1 = console s
  /\ Permutation (posts s1) (posts s)
  /\ requests s2 = requests s /\ console s2 = console s
  /\ Permutation (posts s2) (posts s)
  /\ sortDirection s2 = sortDirection s.
Proof.
  intros H. cbv zeta.
  rewrite sortAndRenderPosts_after_fetch, groupAndRenderPosts_after_fetch.
  rewrite (fetchIfEmpty_nonempty network s H). simpl.
  repeat split; auto using sortPosts_perm, groupByUser_perm.
Qed.

Lemma sort_and_group_work_offline_on_loaded_posts_witness :
  let network := fun (_ : nat) (_ : option string) => Rejected "offline"%string in
  let s := mkPage two_one_two None [Some "/posts"%string] [] [two_one_two] [] in
  requests (snd (groupAndRenderPosts network s)) = [Some "/posts"%string].
Proof.
  intros network s.
  assert (H : posts s <> []) by discriminate.
  exact (proj1 (proj2 (proj2 (proj2
           (sort_and_group_work_offline_on_loaded_posts network s H))))).
Defined.

(** X3.  For every array of posts, [sortPosts] with ["asc"] returns the
    titles in descending order (each title is at least every title after
    it), and with ["desc"] in ascending order. *)
Theorem sortPosts_orders_titles_against_its_direction (l : list post) :
  StronglySorted title_ge (sortPosts l asc)
  /\ StronglySorted title_le (sortPosts l desc).
Proof.
  split; [apply sortPosts_asc_descending|apply sortPosts_desc_ascending].
Qed.

Lemma titled_sort_insert (t : string) (x : post) (l : list post) :
  titled t (Js.sort_insert compareTitles x l) = titled t (x :: l).
Proof.
  induction l as [|y l IH]; [reflexivity|]. simpl Js.sort_insert.
  destruct (compareTitles x y <=? 0) eqn:E; [reflexivity|].
  unfold titled in *. simpl in *. rewrite IH.
  assert (Hne : title x <> title y).
  { intros Heq. unfold compareTitles in E. rewrite Heq in E.
    assert (Hirr : (title y <? title y)%string = false).
    { unfold String.ltb.
      pose proof (String.compare_antisym (title y) (title y)) as Ha.
      destruct (title y ?= title y)%string; simpl in Ha; congruence. }
    rewrite Hirr in E. discriminate. }
  destruct (String.eqb_spec (title x) t) as [Ex|Ex];
    destruct (String.eqb_spec (title y) t) as [Ey|Ey]; try reflexivity.
  congruence.
Qed.

Lemma titled_sort (t : string) (l : list post) :
  titled t (Js.sort compareTitles l) = titled t l.
Proof.
  induction l as [|x l IH]; [reflexivity|]. simpl Js.sort.
  rewrite titled_sort_insert. unfold titled in *. simpl. now rewrite IH.
Qed.

(** X4.  The sort is stable: posts with the same title keep the order they
    had in the input under ["asc"], and come out in the opposite order under
    ["desc"], which reverses the whole array. *)
Theorem sortPosts_keeps_ties_in_input_order (t : string) (l : list post) :
  titled t (sortPosts l asc) = titled t l
  /\ titled t (sortPosts l desc) = rev (titled t l).
Proof.
  unfold sortPosts, Js.reverse. split; [apply titled_sort|].
  unfold titled. rewrite filter_rev. f_equal. apply titled_sort.
Qed.

(** X6.  When the endpoint answers with an array of posts,
    [fetchAndRenderPosts] replaces whatever posts the page held by that
    array, shows it, makes exactly that one request and logs nothing; the
    direction flag of an earlier sort stays as it was. *)
Theorem fetchAndRenderPosts_replaces_the_posts
  (network : nat -> option string -> reply) (s : page) (apiUrl : string)
  (ps : list post) :
  network (length (requests s)) (Some apiUrl) = Response (JsonPosts ps) ->
  fetchAndRenderPosts network apiUrl s
  = (Normal tt,
     mkPage ps (sortDirection s) (requests s ++ [Some apiUrl]) (console s)
            (renders s ++ [ps]) (view_of ps)).
Proof.
  intros H. rewrite fetchAndRenderPosts_after_fetch, fetchPosts_spec, H.
  reflexivity.
Qed.

Lemma fetchAndRenderPosts_replaces_the_posts_witness :
  fetchAndRenderPosts (fun _ _ => Response (JsonPosts two_one_two)) "/posts"%string
    (mkPage B_A_C (Some desc) [] [] [] [])
  = (Normal tt,
     mkPage two_one_two (Some desc) [Some "/posts"%string] [] [two_one_two]
            (view_of two_one_two)).
Proof.
  apply (fetchAndRenderPosts_replaces_the_posts
           (fun _ _ => Response (JsonPosts two_one_two))
           (mkPage B_A_C (Some desc) [] [] [] []) "/posts"%string two_one_two).
  reflexivity.
Defined.

Lemma sort_of_sorted (l : list post) :
  StronglySorted title_ge l -> Js.sort compareTitles l = l.
Proof.
  induction 1 as [|x l Hl IH Hx]; simpl; [reflexivity|]. rewrite IH.
  destruct l as [|y l]; simpl; [reflexivity|].
  inversion Hx as [|? ? Hxy _]; subst. unfold title_ge in Hxy.
  unfold compareTitles.
  assert (E : (title x <? title y)%string = false).
  { unfold String.ltb, String.leb in *.
    rewrite (String.compare_antisym (title y) (title x)) in Hxy.
    now destruct (title x ?= title y)%string. }
  rewrite E. now destruct (title y <? title x)%string.
Qed.

(** X16.  Posts that [sortPosts] has sorted with ["asc"] are left as they
    are by another ["asc"] sort, and sorting them with ["desc"] gives what
    sorting the original posts with ["desc"] gives, also when titles
    repeat. *)
Theorem sortPosts_again_after_asc (l : list post) :
  sortPosts (sortPosts l asc) asc = sortPosts l asc
  /\ sortPosts (sortPosts l asc) desc = sortPosts l desc.
Proof.
  unfold sortPosts, Js.reverse.
  now rewrite (sort_of_sorted _ (sort_sorted l)).
Qed.

(** ** Grouping and sorting together *)

Lemma members_groupByUser (l : list post) (k : Z) :
  members k (groupByUser l) = members k l.
Proof.
  rewrite groupByUser_blocks.
  destruct (in_dec Z.eq_dec k (map fst (Js.own_properties (grouped_of l))))
    as [Hin|Hnin].
  - apply members_blocks; [apply group_keys_NoDup|exact Hin].
  - rewrite members_blocks_absent by exact Hnin.
    symmetry. apply members_absent. now rewrite <- group_keys_In.
Qed.

Lemma members_present (k : Z) (l : list post) :
  In k (map userId l) -> members k l <> [].
Proof.
  intros H. apply in_map_iff in H. destruct H as (p & E & Hp).
  intros Hnil. assert (Hin : In p (members k l)).
  { apply filter_In. split; [exact Hp|]. now apply Z.eqb_eq. }
  rewrite Hnil in Hin. contradiction.
Qed.

Lemma first_seen_block (k : Z) (blk rest : list post) :
  blk <> [] ->
  Forall (fun p => userId p = k) blk ->
  Forall (fun p => userId p <> k) rest ->
  first_seen (map userId (blk ++ rest)) = k :: first_seen (map userId rest).
Proof.
  intros Hne Hblk Hrest.
  assert (Hkeep : filter (fun k' => negb (k' =? k)) (first_seen (map userId rest))
                  = first_seen (map userId rest)).
  { apply filter_all. intros k' Hk'. apply (proj1 (first_seen_In _ _)) in Hk'.
    apply in_map_iff in Hk'. destruct Hk' as (p & E & Hp).
    rewrite Forall_forall in Hrest. specialize (Hrest p Hp).
    apply negb_true_iff, Z.eqb_neq. congruence. }
  induction Hblk as [|x blk Hx Hblk IH]; [congruence|]. simpl. rewrite Hx.
  destruct blk as [|y blk].
  - simpl. now rewrite Hkeep.
  - rewrite IH by discriminate. simpl. rewrite Z.eqb_refl. simpl.
    now rewrite Hkeep.
Qed.

Lemma first_seen_blocks (l : list post) (ks : list Z) :
  NoDup ks -> (forall k, In k ks -> members k l <> []) ->
  first_seen (map userId (flat_map (fun k => members k l) ks)) = ks.
Proof.
  induction 1 as [|k ks Hnin HN IH]; intros Hne; simpl; [reflexivity|].
  rewrite (first_seen_block k).
  - f_equal. apply IH. intros k' Hk'. apply Hne. now right.
  - apply Hne. now left.
  - apply members_userId.
  - now apply members_of_others.
Qed.

Lemma ascending_of_sorted {V : Type} (o : Js.object V) :
  StronglySorted (fun a b => fst a <= fst b) o -> Js.ascending o = o.
Proof.
  induction 1 as [|e o Ho IH He]; simpl; [reflexivity|]. rewrite IH.
  destruct o as [|e' o]; simpl; [reflexivity|].
  inversion He as [|? ? Hle _]; subst.
  now rewrite (proj2 (Z.leb_le _ _) Hle).
Qed.

Lemma filter_none {A : Type} (p : A -> bool) (l : list A) :
  (forall x, In x l -> p x = false) -> filter p l = [].
Proof.
  induction l as [|x l IH]; simpl; intros H; [reflexivity|].
  rewrite (H x) by now left. apply IH. intros y Hy. apply H. now right.
Qed.

Lemma filter_entries {V : Type} (p : Z -> bool) (g : Z -> V) (ks : list Z) :
  filter (fun e => p (fst e)) (map (fun k => (k, g k)) ks)
  = map (fun k => (k, g k)) (filter p ks).
Proof.
  induction ks as [|k ks IH]; simpl; [reflexivity|].
  destruct (p k); simpl; now rewrite IH.
Qed.

Lemma sorted_entries {V : Type} (g : Z -> V) (ks : list Z) :
  StronglySorted Z.lt ks ->
  StronglySorted (fun a b => fst a <= fst b) (map (fun k => (k, g k)) ks).
Proof.
  induction 1 as [|k ks Hks IH Hk]; simpl; constructor; [exact IH|].
  apply Forall_map. eapply Forall_impl; [|exact Hk]. simpl. intros. lia.
Qed.

(** The groups of an already grouped array are listed in the order they
    have in it. *)
Lemma group_keys_of_grouped (l : list post) :
  map fst (Js.own_properties (grouped_of (groupByUser l)))
  = map fst (Js.own_properties (grouped_of l)).
Proof.
  destruct (group_keys_split l) as (indices & Hsorted & Hperm & E).
  set (others := filter (fun k => negb (Js.is_array_index k))
                        (first_seen (map userId l))) in *.
  assert (Hseen : first_seen (map userId (groupByUser l)) = indices ++ others).
  { rewrite groupByUser_blocks, <- E. apply first_seen_blocks.
    - apply group_keys_NoDup.
    - intros k Hk. apply members_present. now apply group_keys_In. }
  assert (Hidx : forall k, In k indices -> Js.is_array_index k = true).
  { intros k Hk. apply (Permutation_in _ Hperm) in Hk.
    now apply filter_In in Hk. }
  assert (Hoth : forall k, In k others -> Js.is_array_index k = false).
  { intros k Hk. apply filter_In in Hk. now apply negb_true_iff. }
  rewrite E. unfold Js.own_properties, grouped_of. rewrite Hseen.
  rewrite (filter_entries Js.is_array_index),
    (filter_entries (fun k => negb (Js.is_array_index k))).
  rewrite !filter_app.
  rewrite (filter_all Js.is_array_index indices Hidx).
  rewrite (filter_none Js.is_array_index others Hoth).
  rewrite (filter_none (fun k => negb (Js.is_array_index k)) indices)
    by (intros k Hk; now rewrite (Hidx k Hk)).
  rewrite (filter_all (fun k => negb (Js.is_array_index k)) others)
    by (intros k Hk; now rewrite (Hoth k Hk)).
  rewrite app_nil_r. simpl.
  rewrite ascending_of_sorted by now apply sorted_entries.
  rewrite map_app, !map_map. simpl. now rewrite !map_id.
Qed.

(** X7.  Grouping is idempotent: grouping an array that [groupByUser]
    returned gives back the same array. *)
Theorem groupByUser_twice_is_groupByUser (l : list post) :
  groupByUser (groupByUser l) = groupByUser l.
Proof.
  rewrite (groupByUser_blocks (groupByUser l)), group_keys_of_grouped.
  transitivity (flat_map (fun k => members k l)
                  (map fst (Js.own_properties (grouped_of l))));
    [|symmetry; apply groupByUser_blocks].
  apply flat_map_ext. intros k. apply members_groupByUser.
Qed.

(** X8.  Sorting forgets a grouping: when no two posts have the same title,
    sorting the grouped posts gives the same array as sorting the posts as
    they were. *)
Theorem sortPosts_after_groupByUser (l : list post) (dir : direction) :
  NoDup (map title l) ->
  sortPosts (groupByUser l) dir = sortPosts l dir.
Proof.
  intros HN. symmetry. apply sortPosts_unique; [|exact HN].
  apply Permutation_sym, groupByUser_perm.
Qed.

Lemma sortPosts_after_groupByUser_witness :
  sortPosts (groupByUser two_one_two) desc = sortPosts two_one_two desc.
Proof.
  apply (sortPosts_after_groupByUser two_one_two desc).
  repeat constructor; simpl; intuition discriminate.
Defined.

Lemma StronglySorted_filter {A : Type} (R : A -> A -> Prop) (p : A -> bool)
  (l : list A) :
  StronglySorted R l -> StronglySorted R (filter p l).
Proof.
  induction 1 as [|x l Hl IH Hx]; simpl; [constructor|].
  destruct (p x); [|exact IH]. constructor; [exact IH|].
  rewrite Forall_forall in *. intros y Hy. apply Hx.
  now apply filter_In in Hy.
Qed.

(** X9.  Grouping keeps a sort inside each group: after the posts have been
    sorted, the posts of every user appear in [groupByUser]'s output in the
    sorted order, descending by title after ["asc"] and ascending after
    ["desc"]. *)
Theorem groupByUser_keeps_each_group_sorted (l : list post) (k : Z) :
  members k (groupByUser (sortPosts l asc)) = members k (sortPosts l asc)
  /\ StronglySorted title_ge (members k (groupByUser (sortPosts l asc)))
  /\ members k (groupByUser (sortPosts l desc)) = members k (sortPosts l desc)
  /\ StronglySorted title_le (members k (groupByUser (sortPosts l desc))).
Proof.
  rewrite !members_groupByUser. repeat split; unfold members.
  - apply StronglySorted_filter, sortPosts_asc_descending.
  - apply StronglySorted_filter, sortPosts_desc_ascending.
Qed.

End PostsTheory.

(** * Properties of page1.js, whatever JSON the endpoint sends *)

Module Page1AnyTheory.
Import Page1.
Import Page1Any.

Lemma fetchPosts_any (network : nat -> option string -> reply)
  (apiUrl : option string) (s : page) :
  fetchPosts network apiUrl s
  = (Normal (delivered (network (length (requests s)) apiUrl)),
     mkPage (posts s) (sortDirection s) (requests s ++ [apiUrl])
            (console s ++ logged (network (length (requests s)) apiUrl))
            (renders s) (rootElement s)).
Proof.
  unfold fetchPosts, try_catch, bind, fetch.
  destruct (network (length (requests s)) apiUrl) as [err|[err|v]]; simpl;
    rewrite ?app_nil_r; reflexivity.
Qed.

Lemma delivered_array (network : nat -> option string -> reply) :
  arrays_only network ->
  forall n apiUrl, exists l, delivered (network n apiUrl) = ArrayOf l.
Proof.
  intros H n apiUrl. specialize (H n apiUrl).
  destruct (network n apiUrl) as [err|[err|[l|v]]]; simpl; eauto.
  exfalso. now apply (H v).
Qed.

(** One call on a page that holds an array, when only arrays arrive. *)
Lemma perform_on_array (network : nat -> option string -> reply) (a : action)
  (s : page) (ps : list post) :
  arrays_only network -> posts s = ArrayOf ps ->
  exists ps',
    fst (perform network a s) = Normal tt
    /\ posts (snd (perform network a s)) = ArrayOf ps'
    /\ rootElement (snd (perform network a s)) = view_of ps'
    /\ renders (snd (perform network a s)) = renders s ++ [ArrayOf ps']
    /\ sortDirection (snd (perform network a s))
       = match a with
         | SortAndRender => Some (toggled (sortDirection s))
         | _ => sortDirection s
         end.
Proof.
  intros Hnet Hps. destruct s as [v d rq co rn el]. simpl in Hps. subst v.
  destruct a as [apiUrl| |]; simpl.
  - unfold fetchAndRenderPosts, bind. rewrite fetchPosts_any. simpl.
    destruct (delivered_array network Hnet (length rq) (Some apiUrl)) as [l ->].
    simpl. exists l. repeat split.
  - unfold sortAndRenderPosts, fetchIfEmpty, bind. simpl.
    destruct ps as [|p ps]; simpl.
    + rewrite fetchPosts_any. simpl.
      destruct (delivered_array network Hnet (length rq) None) as [l ->].
      simpl. eexists. repeat split.
    + eexists. repeat split.
  - unfold groupAndRenderPosts, fetchIfEmpty, bind. simpl.
    destruct ps as [|p ps]; simpl.
    + rewrite fetchPosts_any. simpl.
      destruct (delivered_array network Hnet (length rq) None) as [l ->].
      simpl. eexists. repeat split.
    + eexists. repeat split.
Qed.

(** On arrays the three functions do here what they do in [Page1]. *)
Lemma typed_pages_agree (network : nat -> option string -> Page1.reply)
  (a : action) (s : Page1.page) :
  perform (fun n apiUrl => of_typed_reply (network n apiUrl)) a (of_typed_page s)
  = match a with
    | FetchAndRender apiUrl =>
        (fst (Page1.fetchAndRenderPosts network apiUrl s),
         of_typed_page (snd (Page1.fetchAndRenderPosts network apiUrl s)))
    | SortAndRender =>
        (fst (Page1.sortAndRenderPosts network s),
         of_typed_page (snd (Page1.sortAndRenderPosts network s)))
    | GroupAndRender =>
        (fst (Page1.groupAndRenderPosts network s),
         of_typed_page (snd (Page1.groupAndRenderPosts network s)))
    end.
Proof.
  destruct s as [ps d rq co rn el].
  destruct a as [apiUrl| |]; simpl.
  - unfold fetchAndRenderPosts, Page1.fetchAndRenderPosts, bind.
    rewrite fetchPosts_any, PostsTheory.fetchPosts_spec.
    unfold of_typed_page. simpl.
    destruct (network (length rq) (Some apiUrl)) as [err|[err|l]]; simpl;
      rewrite ?app_nil_r, ?map_app; reflexivity.
  - unfold sortAndRenderPosts, Page1.sortAndRenderPosts, fetchIfEmpty,
      Page1.fetchIfEmpty, bind, of_typed_page. simpl.
    destruct ps as [|p ps]; simpl.
    + rewrite fetchPosts_any, PostsTheory.fetchPosts_spec. simpl.
      destruct (network (length rq) None) as [err|[err|l]]; simpl;
        rewrite ?app_nil_r, ?map_app; reflexivity.
    + now rewrite map_app.
  - unfold groupAndRenderPosts, Page1.groupAndRenderPosts, fetchIfEmpty,
      Page1.fetchIfEmpty, bind, of_typed_page. simpl.
    destruct ps as [|p ps]; simpl.
    + rewrite fetchPosts_any, PostsTheory.fetchPosts_spec. simpl.
      destruct (network (length rq) None) as [err|[err|l]]; simpl;
        rewrite ?app_nil_r, ?map_app; reflexivity.
    + now rewrite map_app.
Qed.

(** X1.  As long as no reply is JSON that is not an array, whichever of the
    three public functions are called in whatever order on the freshly
    loaded page, no call throws; afterwards [data.posts] is an array, the
    list on screen shows exactly its posts, one element per post in their
    order, and [render] has run once per call, the last time on
    [data.posts]. *)
Theorem page_shows_its_posts_while_replies_are_arrays
  (network : nat -> option string -> reply) (l : list action) :
  arrays_only network ->
  let r := performAll network l load in
  fst r = repeat (Normal tt) (length l)
  /\ exists ps,
       posts (snd r) = ArrayOf ps
       /\ rootElement (snd r) = view_of ps
       /\ length (renders (snd r)) = length l
       /\ last (renders (snd r)) (ArrayOf []) = ArrayOf ps.
Proof.
  intros Hnet.
  assert (G : forall (s0 : page) (ps0 : list post),
             posts s0 = ArrayOf ps0 ->
             rootElement s0 = view_of ps0 ->
             last (renders s0) (ArrayOf []) = ArrayOf ps0 ->
             let r := performAll network l s0 in
             fst r = repeat (Normal tt) (length l)
             /\ exists ps,
                  posts (snd r) = ArrayOf ps
                  /\ rootElement (snd r) = view_of ps
                  /\ length (renders (snd r)) = (length (renders s0) + length l)%nat
                  /\ last (renders (snd r)) (ArrayOf []) = ArrayOf ps).
  { induction l as [|a l IH]; intros s0 ps0 Hp Hv Hl; simpl.
    - split; [reflexivity|]. exists ps0. repeat split; auto.
    - destruct (perform_on_array network a s0 ps0 Hnet Hp)
        as (ps1 & Hn & Hp1 & Hv1 & Hr1 & _).
      assert (Hl1 : last (renders (snd (perform network a s0))) (ArrayOf [])
                    = ArrayOf ps1) by (rewrite Hr1; apply last_last).
      destruct (IH _ ps1 Hp1 Hv1 Hl1) as (Hc & ps & H1 & H2 & H3 & H4).
      split; [now rewrite Hn, Hc|].
      exists ps. repeat split; auto.
      rewrite H3, Hr1, length_app. simpl. lia. }
  exact (G load [] eq_refl eq_refl eq_refl).
Qed.

Lemma page_shows_its_posts_while_replies_are_arrays_witness :
  fst (performAll (fun _ _ => Response (Json (ArrayOf two_one_two)))
                  [SortAndRender; GroupAndRender; FetchAndRender "/posts"%string] load)
  = [Normal tt; Normal tt; Normal tt].
Proof.
  assert (H : arrays_only (fun _ _ => Response (Json (ArrayOf two_one_two))))
    by (intros n apiUrl v; discriminate).
  exact (proj1 (page_shows_its_posts_while_replies_are_arrays
                  (fun _ _ => Response (Json (ArrayOf two_one_two)))
                  [SortAndRender; GroupAndRender; FetchAndRender "/posts"%string] H)).
Defined.

(** X5.  As long as no reply is JSON that is not an array, the direction
    flag depends only on how many times [sortAndRenderPosts] has been called
    since the page was loaded: it is unset before the first call, ["asc"]
    after an odd number of calls and ["desc"] after an even number; fetching
    and grouping leave it alone. *)
Theorem sortDirection_counts_the_sorts_while_replies_are_arrays
  (network : nat -> option string -> reply) (l : list action) :
  arrays_only network ->
  sortDirection (snd (performAll network l load))
  = match sorts l with
    | O => None
    | S _ => Some (if Nat.odd (sorts l) then asc else desc)
    end.
Proof.
  intros Hnet.
  assert (G : forall (s0 : page) (ps0 : list post) (n0 : nat),
             posts s0 = ArrayOf ps0 ->
             sortDirection s0 = match n0 with
                                | O => None
                                | S _ => Some (if Nat.odd n0 then asc else desc)
                                end ->
             sortDirection (snd (performAll network l s0))
             = match (n0 + sorts l)%nat with
               | O => None
               | S _ => Some (if Nat.odd (n0 + sorts l) then asc else desc)
               end).
  { induction l as [|a l IH]; intros s0 ps0 n0 Hp H0; simpl.
    - now rewrite Nat.add_0_r.
    - destruct (perform_on_array network a s0 ps0 Hnet Hp)
        as (ps1 & _ & Hp1 & _ & _ & Hd).
      destruct a as [apiUrl| |].
      + apply (IH _ ps1); [exact Hp1|]. now rewrite Hd.
      + replace (n0 + S (sorts l))%nat with (S n0 + sorts l)%nat by lia.
        apply (IH _ ps1); [exact Hp1|].
        rewrite Hd, H0. rewrite Nat.odd_succ, <- Nat.negb_odd.
        destruct n0 as [|n0]; [reflexivity|]. now destruct (Nat.odd (S n0)).
      + apply (IH _ ps1); [exact Hp1|]. now rewrite Hd. }
  exact (G load [] O eq_refl eq_refl).
Qed.

Lemma sortDirection_counts_the_sorts_while_replies_are_arrays_witness :
  sortDirection
    (snd (performAll (fun _ _ => Rejected "offline"%string)
                     [SortAndRender; FetchAndRender "/posts"%string; SortAndRender;
                      GroupAndRender; SortAndRender] load))
  = Some asc.
Proof.
  assert (H : arrays_only (fun _ _ => Rejected "offline"%string))
    by (intros n apiUrl v; discriminate).
  exact (sortDirection_counts_the_sorts_while_replies_are_arrays
           (fun _ _ => Rejected "offline"%string)
           [SortAndRender; FetchAndRender "/posts"%string; SortAndRender;
            GroupAndRender; SortAndRender] H).
Defined.

(** X17.  When the body of the response is JSON that is not an array,
    [fetchAndRenderPosts] throws a [TypeError]: by then it has made its
    request, logged nothing, stored the value in [data.posts] and emptied
    the list on screen. *)
Theorem fetchAndRenderPosts_throws_on_json_that_is_no_array
  (network : nat -> option string -> reply) (s : page) (apiUrl : string)
  (v : nonArray) :
  network (length (requests s)) (Some apiUrl) = Response (Json (NotArray v)) ->
  fetchAndRenderPosts network apiUrl s
  = (Throw "TypeError"%string,
     mkPage (NotArray v) (sortDirection s) (requests s ++ [Some apiUrl])
            (console s) (renders s ++ [NotArray v]) []).
Proof.
  intros H. unfold fetchAndRenderPosts, bind. rewrite fetchPosts_any, H. simpl.
  now rewrite app_nil_r.
Qed.

Lemma fetchAndRenderPosts_throws_on_json_that_is_no_array_witness :
  fetchAndRenderPosts (fun _ _ => Response (Json (NotArray (JsonObject false))))
    "/posts"%string (mkPage (ArrayOf B_A_C) (Some asc) [] [] [] (view_of B_A_C))
  = (Throw "TypeError"%string,
     mkPage (NotArray (JsonObject false)) (Some asc) [Some "/posts"%string] []
            [NotArray (JsonObject false)] []).
Proof.
  apply (fetchAndRenderPosts_throws_on_json_that_is_no_array
           (fun _ _ => Response (Json (NotArray (JsonObject false))))
           (mkPage (ArrayOf B_A_C) (Some asc) [] [] [] (view_of B_A_C))
           "/posts"%string (JsonObject false)).
  reflexivity.
Defined.

(** X18.  While [data.posts] is [null], [sortAndRenderPosts] and
    [groupAndRenderPosts] throw a [TypeError] on reading its [length] and
    leave the page as it is: nothing is fetched, the direction flag is not
    toggled and nothing is rendered. *)
Theorem sort_and_group_throw_at_once_on_null
  (network : nat -> option string -> reply) (s : page) :
  posts s = NotArray JsonNull ->
  sortAndRenderPosts network s = (Throw "TypeError"%string, s)
  /\ groupAndRenderPosts network s = (Throw "TypeError"%string, s).
Proof.
  intros H. unfold sortAndRenderPosts, groupAndRenderPosts, fetchIfEmpty, bind,
    get_posts, pure. rewrite H. split; reflexivity.
Qed.

Lemma sort_and_group_throw_at_once_on_null_witness :
  let network := fun (_ : nat) (_ : option string) =>
                   Response (Json (NotArray JsonNull)) in
  let s := snd (fetchAndRenderPosts network "/posts"%string load) in
  sortAndRenderPosts network s = (Throw "TypeError"%string, s).
Proof.
  intros network s.
  exact (proj1 (sort_and_group_throw_at_once_on_null network s eq_refl)).
Defined.

(** X19.  While [data.posts] holds a value that is not an array and whose
    [length] is not [0] (a number, a boolean, a non-empty string, an object
    without a zero [length]), [sortAndRenderPosts] toggles the direction
    flag and then throws a [TypeError] at [posts.sort], and
    [groupAndRenderPosts] throws a [TypeError] at [posts.reduce]; neither
    fetches, renders or changes [data.posts]. *)
Theorem sort_and_group_throw_on_a_value_that_is_no_array
  (network : nat -> option string -> reply) (s : page) (v : nonArray) :
  posts s = NotArray v ->
  lengthIsZero (NotArray v) = Normal false ->
  sortAndRenderPosts network s
  = (Throw "TypeError"%string,
     mkPage (posts s) (Some (toggled (sortDirection s))) (requests s) (console s)
            (renders s) (rootElement s))
  /\ groupAndRenderPosts network s = (Throw "TypeError"%string, s).
Proof.
  intros H Hz. unfold sortAndRenderPosts, groupAndRenderPosts, fetchIfEmpty, bind,
    get_posts, pure. rewrite H, Hz. simpl. rewrite H. split; [reflexivity|].
  destruct s; simpl in *. now subst.
Qed.

Lemma sort_and_group_throw_on_a_value_that_is_no_array_witness :
  sortAndRenderPosts (fun _ _ => Rejected "offline"%string)
    (mkPage (NotArray (JsonString "oops")) None [Some "/posts"%string] []
            [NotArray (JsonString "oops")] [])
  = (Throw "TypeError"%string,
     mkPage (NotArray (JsonString "oops")) (Some asc) [Some "/posts"%string] []
            [NotArray (JsonString "oops")] []).
Proof.
  exact (proj1 (sort_and_group_throw_on_a_value_that_is_no_array
                  (fun _ _ => Rejected "offline"%string)
                  (mkPage (NotArray (JsonString "oops")) None
                          [Some "/posts"%string] []
                          [NotArray (JsonString "oops")] [])
                  (JsonString "oops") eq_refl eq_refl)).
Defined.

End Page1AnyTheory.

(** * Properties of page2.js *)

Module AudioTheory.
Import Page2.

(** ** Updating one element of a list *)

Section Modify.
Context {A : Type}.
Implicit Types (l : list A) (f g : A -> A).

Lemma modify_length n f l : length (modify n f l) = length l.
Proof.
  revert n. induction l as [|x l IH]; intros [|n]; simpl; auto.
Qed.

Lemma nth_error_modify_same n f l x :
  nth_error l n = Some x -> nth_error (modify n f l) n = Some (f x).
Proof.
  revert n. induction l as [|y l IH]; intros [|n]; simpl; try discriminate.
  - now intros [= ->].
  - apply IH.
Qed.

Lemma nth_error_modify_other n m f l :
  n <> m -> nth_error (modify n f l) m = nth_error l m.
Proof.
  revert n m. induction l as [|y l IH]; intros [|n] [|m] H; simpl;
    try reflexivity; try congruence.
  apply IH. congruence.
Qed.

Lemma modify_modify n f g l :
  modify n f (modify n g l) = modify n (fun x => f (g x)) l.
Proof.
  revert n. induction l as [|y l IH]; intros [|n]; simpl; auto.
  now rewrite IH.
Qed.

Lemma modify_ext_at n f g l x :
  nth_error l n = Some x -> f x = g x -> modify n f l = modify n g l.
Proof.
  revert n. induction l as [|y l IH]; intros [|n]; simpl; try discriminate.
  - intros [= ->] E. now rewrite E.
  - intros H E. f_equal. now apply IH.
Qed.

Lemma modify_snoc f l x : modify (length l) f (l ++ [x]) = l ++ [f x].
Proof.
  induction l as [|y l IH]; simpl; [reflexivity|]. now rewrite IH.
Qed.

Lemma nth_error_snoc l x : nth_error (l ++ [x]) (length l) = Some x.
Proof.
  induction l as [|y l IH]; simpl; auto.
Qed.

Lemma nth_error_app_left l l' n x :
  nth_error l n = Some x -> nth_error (l ++ l') n = Some x.
Proof.
  revert n. induction l as [|y l IH]; intros [|n]; simpl; try discriminate; auto.
Qed.
End Modify.

(** ** The click listeners *)

Lemma clickPlay_enabled (p : page) (i : nat) (c : audioControl) :
  nth_error (audioControls p) i = Some c ->
  playDisabled c = false ->
  clickPlay i p = (Normal tt, playing p i c).
Proof.
  intros Hc Hp. unfold clickPlay. rewrite Hc, Hp. simpl.
  unfold playAudio, bind, createBufferSource, set_buffer, connect, start,
    set_playDisabled, set_stopDisabled, set_sourceNode, update_node,
    update_control, ret. simpl.
  rewrite !modify_snoc. simpl. rewrite nth_error_snoc. simpl.
  rewrite ?modify_snoc. simpl. rewrite !modify_modify. simpl.
  unfold playing. f_equal. f_equal.
  eapply modify_ext_at; [exact Hc|]. reflexivity.
Qed.

Lemma clickPlay_disabled (p : page) (i : nat) (c : audioControl) :
  nth_error (audioControls p) i = Some c ->
  playDisabled c = true ->
  clickPlay i p = (Normal tt, p).
Proof.
  intros Hc Hp. unfold clickPlay. now rewrite Hc, Hp.
Qed.

Lemma clickStop_disabled (p : page) (i : nat) (c : audioControl) :
  nth_error (audioControls p) i = Some c ->
  stopDisabled c = true ->
  clickStop i p = (Normal tt, p).
Proof.
  intros Hc Hp. unfold clickStop. now rewrite Hc, Hp.
Qed.

Lemma clickStop_enabled (p : page) (i : nat) (c : audioControl) :
  nth_error (audioControls p) i = Some c ->
  stopDisabled c = false ->
  holds_started_node p c ->
  clickStop i p = (Normal tt, stopped p i c).
Proof.
  intros Hc Hs Hn. unfold clickStop. rewrite Hc, Hs. simpl.
  unfold stopAudio, bind, stop, set_playDisabled, set_stopDisabled,
    update_node, update_control, ret, stopped, holds_started_node in *.
  destruct (sourceNode c) as [n|] eqn:En; simpl.
  - destruct Hn as (x & Hx & Hst). rewrite Hx, Hst. simpl.
    rewrite modify_modify. f_equal. f_equal.
    eapply modify_ext_at; [exact Hc|]. simpl. now rewrite En.
  - rewrite modify_modify. f_equal. f_equal.
    eapply modify_ext_at; [exact Hc|]. simpl. now rewrite En.
Qed.

(** ** Loading the panel *)

Section LoadingFacts.
Variable network : string -> reply.
Variable decoder : list Z -> completion AudioBuffer.

Lemma loadOne_spec (url : string) (s : page) :
  loadOne network decoder url s
  = (Normal tt,
     mkPage (nodes s)
            (audioControls s ++ controls_of network decoder url)
            (effects s ++ effects_of network decoder url)).
Proof.
  unfold effects_of, controls_of, decodes, loadOne, loadAudioFile, try_catch, bind,
    fetch, arrayBuffer, decodeAudioData, emit, throw, ret, appendChild,
    createAudioContext.
  simpl.
  destruct (network url) as [m|[m|d]]; simpl;
    [| |destruct (decoder d) as [b|m]; simpl];
    rewrite <- ?app_assoc, ?app_nil_r; reflexivity.
Qed.

Lemma forOf_spec (files : list string) (s : page) :
  forOf network decoder files s
  = (Normal tt,
     mkPage (nodes s)
            (audioControls s ++ flat_map (controls_of network decoder) files)
            (effects s ++ flat_map (effects_of network decoder) files)).
Proof.
  revert s. induction files as [|url files IH]; intros s; simpl.
  - rewrite !app_nil_r. now destruct s.
  - unfold bind. rewrite loadOne_spec, IH. simpl. now rewrite <- !app_assoc.
Qed.

Lemma onDOMContentLoaded_spec (files : list string) :
  onDOMContentLoaded network decoder files
  = (Normal tt,
     mkPage [] (flat_map (controls_of network decoder) files)
               (flat_map (effects_of network decoder) files)).
Proof.
  unfold onDOMContentLoaded. now rewrite forOf_spec.
Qed.

Lemma loaded_controls_stopped (files : list string) :
  Forall (fun c => playDisabled c = false /\ stopDisabled c = true
                   /\ sourceNode c = None)
         (flat_map (controls_of network decoder) files).
Proof.
  apply Forall_flat_map, Forall_forall. intros url _.
  unfold controls_of. destruct (decodes network decoder url); repeat constructor.
Qed.

Lemma loaded_well_formed (files : list string) :
  well_formed (snd (onDOMContentLoaded network decoder files)).
Proof.
  rewrite onDOMContentLoaded_spec. unfold well_formed. simpl.
  eapply Forall_impl; [|apply loaded_controls_stopped].
  intros c (Hp & Hs & Hn). unfold control_ok, holds_started_node.
  now rewrite Hp, Hs, Hn.
Qed.
End LoadingFacts.

(** ** The panel stays well formed under clicks *)

Lemma Forall_modify {A : Type} (P : A -> Prop) (n : nat) (f : A -> A) (l : list A) :
  Forall P l -> (forall x, nth_error l n = Some x -> P (f x)) ->
  Forall P (modify n f l).
Proof.
  intros H. revert n. induction H as [|y l Hy Hl IH]; intros [|n] Hf; simpl;
    constructor; auto.
Qed.

Lemma nth_error_Forall {A : Type} (P : A -> Prop) (l : list A) (n : nat) (x : A) :
  Forall P l -> nth_error l n = Some x -> P x.
Proof.
  intros H Hx. rewrite Forall_forall in H. eapply H, nth_error_In, Hx.
Qed.

Lemma playing_well_formed (p : page) (i : nat) (c : audioControl) :
  well_formed p -> well_formed (playing p i c).
Proof.
  unfold well_formed, playing. simpl. intros H. apply Forall_modify.
  - eapply Forall_impl; [|exact H]. intros c' [Hb Hn]. split; [exact Hb|].
    unfold holds_started_node in *. simpl.
    destruct (sourceNode c') as [n|]; [|exact I].
    destruct Hn as (x & Hx & Hst). exists x. split; [|exact Hst].
    now apply nth_error_app_left.
  - intros _ _. split; [reflexivity|].
    unfold holds_started_node. simpl. eexists. split; [apply nth_error_snoc|].
    reflexivity.
Qed.

Lemma stopped_well_formed (p : page) (i : nat) (c : audioControl) :
  well_formed p -> nth_error (audioControls p) i = Some c ->
  well_formed (stopped p i c).
Proof.
  unfold well_formed. intros H Hc.
  assert (Hkeep : forall c', holds_started_node p c' ->
                             holds_started_node (stopped p i c) c').
  { intros c' Hn. unfold holds_started_node, stopped in *. simpl.
    destruct (sourceNode c') as [m|]; [|exact I].
    destruct Hn as (x & Hx & Hst).
    destruct (sourceNode c) as [n|]; [|now exists x].
    destruct (Nat.eq_dec n m) as [->|Hne].
    - eexists. split; [apply nth_error_modify_same; exact Hx|]. exact Hst.
    - exists x. split; [|exact Hst]. now rewrite nth_error_modify_other. }
  unfold stopped at 2. simpl. apply Forall_modify.
  - eapply Forall_impl; [|exact H]. intros c' [Hb Hn]. split; auto.
  - intros _ _. split; [reflexivity|].
    destruct (nth_error_Forall _ _ _ _ H Hc) as [_ Hn].
    specialize (Hkeep c Hn). unfold holds_started_node in *. exact Hkeep.
Qed.

Lemma dispatch_well_formed (e : click) (p : page) :
  well_formed p ->
  fst (dispatch e p) = Normal tt /\ well_formed (snd (dispatch e p)).
Proof.
  intros H. destruct e as [i|i]; simpl.
  - destruct (nth_error (audioControls p) i) as [c|] eqn:Hc.
    + destruct (playDisabled c) eqn:Hp.
      * now rewrite (clickPlay_disabled p i c Hc Hp).
      * rewrite (clickPlay_enabled p i c Hc Hp). simpl.
        split; [reflexivity|]. now apply playing_well_formed.
    + unfold clickPlay. now rewrite Hc.
  - destruct (nth_error (audioControls p) i) as [c|] eqn:Hc.
    + destruct (stopDisabled c) eqn:Hs.
      * now rewrite (clickStop_disabled p i c Hc Hs).
      * destruct (nth_error_Forall _ _ _ _ H Hc) as [_ Hn].
        rewrite (clickStop_enabled p i c Hc Hs Hn). simpl.
        split; [reflexivity|]. now apply stopped_well_formed.
    + unfold clickStop. now rewrite Hc.
Qed.

Lemma clicks_well_formed (es : list click) (p : page) :
  well_formed p ->
  fst (clicks es p) = Normal tt /\ well_formed (snd (clicks es p)).
Proof.
  revert p. induction es as [|e es IH]; intros p H; simpl; [now split|].
  destruct (dispatch_well_formed e p H) as [Hn Hw].
  unfold bind. destruct (dispatch e p) as [[[]|err] p']; simpl in *;
    [|discriminate].
  now apply IH.
Qed.

Lemma session_well_formed (network : string -> reply)
  (decoder : list Z -> completion AudioBuffer) (files : list string)
  (es : list click) :
  fst (session network decoder files es) = Normal tt
  /\ well_formed (snd (session network decoder files es)).
Proof.
  apply clicks_well_formed, loaded_well_formed.
Qed.

Lemma modify_preserves {A B : Type} (g : A -> B) (n : nat) (f : A -> A) (l : list A) :
  (forall x, g (f x) = g x) -> map g (modify n f l) = map g l.
Proof.
  intros H. revert n. induction l as [|y l IH]; intros [|n]; simpl;
    rewrite ?H, ?IH; reflexivity.
Qed.

(** C4.  Every control of the panel starts with Play enabled and Stop
    disabled, and after any clicks exactly one of its two buttons is
    enabled.  A click on Play does nothing while Play is disabled; while it
    is enabled it creates one new source node, which no earlier click
    started, starts it, disables Play and enables Stop.  A click on Stop
    does nothing while Stop is disabled; while it is enabled it enables Play
    and disables Stop.  No click ever throws. *)
Theorem control_is_a_two_state_machine
  (network : string -> reply) (decoder : list Z -> completion AudioBuffer)
  (files : list string) (es : list click) (i : nat) (c : audioControl) :
  let p0 := snd (onDOMContentLoaded network decoder files) in
  let p := snd (session network decoder files es) in
  nth_error (audioControls p) i = Some c ->
  Forall (fun c0 => playDisabled c0 = false /\ stopDisabled c0 = true)
         (audioControls p0)
  /\ fst (session network decoder files es) = Normal tt
  /\ stopDisabled c = negb (playDisabled c)
  /\ clickPlay i p = (Normal tt, if playDisabled c then p else playing p i c)
  /\ nth_error (nodes p) (length (nodes p)) = None
  /\ nth_error (nodes (playing p i c)) (length (nodes p))
     = Some (mkSource (Some (audioBuffer c)) true true false)
  /\ firstn (length (nodes p)) (nodes (playing p i c)) = nodes p
  /\ nth_error (audioControls (playing p i c)) i
     = Some (mkControl (fileName c) (audioBuffer c) true false
                       (Some (length (nodes p))))
  /\ clickStop i p = (Normal tt, if stopDisabled c then p else stopped p i c)
  /\ option_map playDisabled (nth_error (audioControls (stopped p i c)) i) = Some false
  /\ option_map stopDisabled (nth_error (audioControls (stopped p i c)) i) = Some true.
Proof.
  intros p0 p Hc.
  destruct (session_well_formed network decoder files es) as [Hn Hw].
  fold p in Hw.
  destruct (nth_error_Forall _ _ _ _ Hw Hc) as [Hb Hnode].
  split; [|split; [exact Hn|split; [exact Hb|]]].
  { subst p0. rewrite onDOMContentLoaded_spec. simpl.
    eapply Forall_impl; [|apply loaded_controls_stopped]. simpl. tauto. }
  split.
  { destruct (playDisabled c) eqn:Hp.
    - now apply clickPlay_disabled with (c := c).
    - now apply clickPlay_enabled. }
  split; [now apply nth_error_None|].
  split; [apply nth_error_snoc|].
  split; [unfold playing; simpl; now rewrite firstn_app, Nat.sub_diag, firstn_all, app_nil_r|].
  split; [unfold playing; simpl; now rewrite (nth_error_modify_same _ _ _ _ Hc)|].
  split.
  { destruct (stopDisabled c) eqn:Hs.
    - now apply clickStop_disabled with (c := c).
    - now apply clickStop_enabled. }
  unfold stopped. simpl. now rewrite (nth_error_modify_same _ _ _ _ Hc).
Qed.

Lemma control_is_a_two_state_machine_witness :
  let network := fun _ : string => Response (Bytes [79; 103; 103; 83]) in
  let decoder := fun d : list Z => Normal (PCM d) in
  let p := snd (session network decoder audioFiles [Play 1; Stop 1; Play 0]) in
  clickPlay 0 p = (Normal tt, p)
  /\ clickStop 0 p
     = (Normal tt,
        stopped p 0 (mkControl (hd ""%string audioFiles) (PCM [79; 103; 103; 83])
                               true false (Some 1%nat))).
Proof.
  intros network decoder p.
  pose proof (control_is_a_two_state_machine network decoder audioFiles
                [Play 1; Stop 1; Play 0] 0
                (mkControl (hd ""%string audioFiles) (PCM [79; 103; 103; 83])
                           true false (Some 1%nat)) eq_refl) as H.
  split.
  - exact (proj1 (proj2 (proj2 (proj2 H)))).
  - exact (proj1 (proj2 (proj2 (proj2 (proj2 (proj2 (proj2 (proj2 (proj2 H))))))))).
Defined.

(** C7.  A click on Stop does not discard the source node of its control:
    [stopAudio] returns [null], but the listener drops that value, so the
    control goes on holding the node it stopped.  After Play and then Stop
    on a control, Play is enabled, Stop is disabled, the node is stopped,
    and the control still refers to it. *)
Theorem stop_leaves_the_source_node_in_place (url : string) (b : AudioBuffer) :
  clicks [Play 0; Stop 0] (mkPage [] [createAudioControls url b] [])
  = (Normal tt,
     mkPage [mkSource (Some b) true true true]
            [mkControl url b false true (Some 0%nat)] [])
  /\ (forall (p : page) (i : nat),
        map sourceNode (audioControls (snd (clickStop i p)))
        = map sourceNode (audioControls p)).
Proof.
  split; [reflexivity|].
  intros p i. unfold clickStop.
  destruct (nth_error (audioControls p) i) as [c|]; [|reflexivity].
  destruct (stopDisabled c); [reflexivity|]. simpl.
  unfold stopAudio, bind, stop, set_playDisabled, set_stopDisabled,
    update_node, update_control, ret.
  destruct (sourceNode c) as [n|]; simpl.
  - destruct (nth_error (nodes p) n) as [x|]; [|reflexivity].
    destruct (startCalled x); [|reflexivity]. simpl.
    now rewrite !(modify_preserves sourceNode).
  - now rewrite !(modify_preserves sourceNode).
Qed.

(** C8.  The [DOMContentLoaded] listener handles the files one after the
    other, in the order of the list: its trace of effects is the traces of
    the single files put end to end, each being the fetch, the reading of
    the body and the decoding of that file followed by the appending of its
    control, or cut short by the logging of the failure.  The panel receives
    one control for each file that decodes, in list order, and nothing for a
    file that fails, and the listener never throws.  For three files of
    which the second fails and the others decode, the panel holds exactly
    two controls, those of the first and of the third. *)
Theorem panel_is_loaded_file_by_file
  (network : string -> reply) (decoder : list Z -> completion AudioBuffer)
  (files : list string) :
  onDOMContentLoaded network decoder files
  = (Normal tt,
     mkPage []
       (flat_map (fun url => match decodes network decoder url with
                             | Some b => [createAudioControls url b]
                             | None => []
                             end) files)
       (flat_map (fun url => effects (snd (onDOMContentLoaded network decoder [url])))
                 files))
  /\ Forall (fun url =>
               effects (snd (onDOMContentLoaded network decoder [url]))
               = match network url with
                 | Rejected m =>
                     [FetchCall url;
                      ConsoleError ("Error loading audio file: " ++ m)%string]
                 | Response (BodyRejected m) =>
                     [FetchCall url; ArrayBufferCall url;
                      ConsoleError ("Error loading audio file: " ++ m)%string]
                 | Response (Bytes d) =>
                     match decoder d with
                     | Throw m =>
                         [FetchCall url; ArrayBufferCall url; DecodeCall d;
                          ConsoleError ("Error loading audio file: " ++ m)%string]
                     | Normal _ =>
                         [FetchCall url; ArrayBufferCall url; DecodeCall d;
                          AppendChild url]
                     end
                 end) files
  /\ (forall (u1 u2 u3 : string) (b1 b3 : AudioBuffer),
        decodes network decoder u1 = Some b1 ->
        decodes network decoder u2 = None ->
        decodes network decoder u3 = Some b3 ->
        audioControls (snd (onDOMContentLoaded network decoder [u1; u2; u3]))
        = [createAudioControls u1 b1; createAudioControls u3 b3]).
Proof.
  split; [|split].
  - rewrite onDOMContentLoaded_spec. f_equal. f_equal.
    apply flat_map_ext. intros url. unfold effects_of, onDOMContentLoaded. simpl.
    unfold bind. now destruct (loadOne network decoder url createAudioContext) as [[[]|e] s'].
  - apply Forall_forall. intros url _.
    unfold onDOMContentLoaded, forOf, bind, loadOne, loadAudioFile, try_catch, bind,
      fetch, arrayBuffer, decodeAudioData, emit, throw, ret, appendChild,
      createAudioContext. simpl.
    destruct (network url) as [m|[m|d]]; simpl; try reflexivity.
    destruct (decoder d) as [b|m]; reflexivity.
  - intros u1 u2 u3 b1 b3 H1 H2 H3.
    rewrite onDOMContentLoaded_spec. simpl. unfold controls_of.
    now rewrite H1, H2, H3.
Qed.

Lemma panel_is_loaded_file_by_file_witness :
  let network := fun url : string =>
                   if String.eqb url (nth 1 audioFiles ""%string)
                   then Response (Bytes [0])
                   else Response (Bytes [79; 103; 103; 83]) in
  let decoder := fun d : list Z =>
                   match d with
                   | [0] => Throw "EncodingError"%string
                   | _ => Normal (PCM d)
                   end in
  audioControls (snd (onDOMContentLoaded network decoder audioFiles))
  = [createAudioControls (nth 0 audioFiles ""%string) (PCM [79; 103; 103; 83]);
     createAudioControls (nth 2 audioFiles ""%string) (PCM [79; 103; 103; 83])].
Proof.
  intros network decoder.
  exact (proj2 (proj2 (panel_is_loaded_file_by_file network decoder audioFiles))
               (nth 0 audioFiles ""%string) (nth 1 audioFiles ""%string)
               (nth 2 audioFiles ""%string)
               (PCM [79; 103; 103; 83]) (PCM [79; 103; 103; 83])
               eq_refl eq_refl eq_refl).
Defined.

(** ** Loading, seen through the trace *)

Section TraceFacts.
Variable network : string -> reply.
Variable decoder : list Z -> completion AudioBuffer.

Lemma errors_app (tr tr' : list effect) : errors (tr ++ tr') = (errors tr + errors tr')%nat.
Proof. unfold errors. now rewrite filter_app, length_app. Qed.

(** X10.  [loadAudioFile] never throws.  It returns the decoded buffer when
    the fetch, the reading of the body and the decoding all succeed, and
    [null] otherwise; it writes one error to the console when it returns
    [null] and none when it returns a buffer, and it touches neither the
    panel nor the nodes of the context. *)
Theorem loadAudioFile_returns_buffer_or_null (url : string) (s : page) :
  let r := loadAudioFile network decoder url s in
  fst r = Normal (decodes network decoder url)
  /\ nodes (snd r) = nodes s
  /\ audioControls (snd r) = audioControls s
  /\ fetched (effects (snd r)) = fetched (effects s) ++ [url]
  /\ errors (effects (snd r))
     = (errors (effects s)
        + match decodes network decoder url with Some _ => 0 | None => 1 end)%nat.
Proof.
  unfold decodes, loadAudioFile, try_catch, bind, fetch, arrayBuffer,
    decodeAudioData, emit, throw, ret, fetched. simpl.
  destruct (network url) as [m|[m|d]]; simpl;
    [| |destruct (decoder d) as [b|m]; simpl];
    rewrite !errors_app, !flat_map_app; simpl;
    rewrite <- ?app_assoc, ?app_nil_r; repeat split; try reflexivity;
    unfold errors; simpl; lia.
Qed.

Lemma effects_of_summary (url : string) :
  fetched (effects_of network decoder url) = [url]
  /\ appended (effects_of network decoder url)
     = map fileName (controls_of network decoder url)
  /\ (errors (effects_of network decoder url)
      + length (controls_of network decoder url) = 1)%nat.
Proof.
  unfold effects_of, controls_of, decodes, loadOne, loadAudioFile, try_catch, bind,
    fetch, arrayBuffer, decodeAudioData, emit, throw, ret, appendChild,
    createAudioContext. simpl.
  destruct (network url) as [m|[m|d]]; simpl; auto.
  destruct (decoder d) as [b|m]; simpl; auto.
Qed.

(** X11.  The [DOMContentLoaded] listener fetches every listed file exactly
    once, in list order, whether or not earlier files failed; every file
    ends either as one control in the panel or as one console error; the
    controls appended to the document are those the panel holds; and loading
    creates no source node. *)
Theorem every_file_is_fetched_once (files : list string) :
  let p := snd (onDOMContentLoaded network decoder files) in
  fetched (effects p) = files
  /\ appended (effects p) = map fileName (audioControls p)
  /\ (length (audioControls p) + errors (effects p) = length files)%nat
  /\ nodes p = [].
Proof.
  rewrite onDOMContentLoaded_spec. simpl.
  induction files as [|url files (IH1 & IH2 & IH3 & _)]; simpl; [auto|].
  destruct (effects_of_summary url) as (E1 & E2 & E3).
  unfold fetched, appended in *.
  rewrite !flat_map_app, errors_app, map_app, length_app.
  rewrite E1, E2, IH1, IH2. simpl. repeat split; try reflexivity; lia.
Qed.
End TraceFacts.

(** ** What a click leaves alone *)

Lemma clickPlay_cases (p : page) (i : nat) :
  clickPlay i p = (Normal tt, p)
  \/ exists c, nth_error (audioControls p) i = Some c
               /\ playDisabled c = false
               /\ clickPlay i p = (Normal tt, playing p i c).
Proof.
  destruct (nth_error (audioControls p) i) as [c|] eqn:Hc.
  - destruct (playDisabled c) eqn:Hp.
    + left. now apply clickPlay_disabled with (c := c).
    + right. exists c. repeat split; auto. now apply clickPlay_enabled.
  - left. unfold clickPlay. now rewrite Hc.
Qed.

(** Where [clickStop] leaves the page, with no assumption on the page. *)
Lemma clickStop_cases (p : page) (i : nat) :
  snd (clickStop i p) = p
  \/ exists c, nth_error (audioControls p) i = Some c
               /\ stopDisabled c = false
               /\ snd (clickStop i p) = stopped p i c.
Proof.
  unfold clickStop.
  destruct (nth_error (audioControls p) i) as [c|] eqn:Hc; [|now left].
  destruct (stopDisabled c) eqn:Hs; [now left|]. simpl.
  unfold stopAudio, bind, stop, set_playDisabled, set_stopDisabled,
    update_node, update_control, ret, stopped.
  destruct (sourceNode c) as [n|] eqn:En; simpl.
  - destruct (nth_error (nodes p) n) as [x|]; [|now left].
    destruct (startCalled x); [|now left]. simpl. right. exists c.
    repeat split; auto. rewrite En, modify_modify. f_equal.
    eapply modify_ext_at; [exact Hc|]. simpl. now rewrite En.
  - right. exists c. repeat split; auto. rewrite En, modify_modify. f_equal.
    eapply modify_ext_at; [exact Hc|]. simpl. now rewrite En.
Qed.

(** X12.  The controls are independent: a click on the Play or the Stop
    button of one control changes no other control, and a click on Play
    changes no node that existed before it, so that several files can play
    at the same time. *)
Theorem a_click_changes_no_other_control (p : page) (i j : nat) :
  i <> j ->
  nth_error (audioControls (snd (clickPlay i p))) j = nth_error (audioControls p) j
  /\ nth_error (audioControls (snd (clickStop i p))) j = nth_error (audioControls p) j
  /\ firstn (length (nodes p)) (nodes (snd (clickPlay i p))) = nodes p.
Proof.
  intros Hij. split; [|split].
  - destruct (clickPlay_cases p i) as [E|(c & _ & _ & E)]; rewrite E; simpl;
      [reflexivity|]. now apply nth_error_modify_other.
  - destruct (clickStop_cases p i) as [E|(c & _ & _ & E)]; rewrite E; simpl;
      [reflexivity|]. now apply nth_error_modify_other.
  - destruct (clickPlay_cases p i) as [E|(c & _ & _ & E)]; rewrite E; simpl.
    + apply firstn_all.
    + now rewrite firstn_app, Nat.sub_diag, firstn_all, app_nil_r.
Qed.

Lemma a_click_changes_no_other_control_witness :
  let p := mkPage [mkSource (Some (PCM [1])) true true false]
                  [mkControl "a" (PCM [1]) true false (Some 0%nat);
                   createAudioControls "b" (PCM [2])] [] in
  nth_error (audioControls (snd (clickPlay 1 p))) 0 = nth_error (audioControls p) 0.
Proof.
  intros p.
  assert (H : 1%nat <> 0%nat) by discriminate.
  exact (proj1 (a_click_changes_no_other_control p 1 0 H)).
Defined.

(** ** What holds in every session *)

Lemma dispatch_cases (e : click) (p : page) :
  snd (dispatch e p) = p
  \/ (exists i c, nth_error (audioControls p) i = Some c
                  /\ playDisabled c = false
                  /\ snd (dispatch e p) = playing p i c)
  \/ (exists i c, nth_error (audioControls p) i = Some c
                  /\ stopDisabled c = false
                  /\ snd (dispatch e p) = stopped p i c).
Proof.
  destruct e as [i|i]; simpl.
  - destruct (clickPlay_cases p i) as [E|(c & H1 & H2 & E)]; rewrite E; simpl;
      [now left|]. right. left. now exists i, c.
  - destruct (clickStop_cases p i) as [E|(c & H1 & H2 & E)];
      [now left|]. right. right. now exists i, c.
Qed.

(** An invariant of the panel that holds when loading ends and that both
    kinds of effective clicks keep holds in every session. *)
Lemma session_invariant (P : page -> Prop)
  (network : string -> reply) (decoder : list Z -> completion AudioBuffer)
  (files : list string) (es : list click) :
  P (snd (onDOMContentLoaded network decoder files)) ->
  (forall p i c, well_formed p -> P p ->
                 nth_error (audioControls p) i = Some c ->
                 playDisabled c = false -> P (playing p i c)) ->
  (forall p i c, well_formed p -> P p ->
                 nth_error (audioControls p) i = Some c ->
                 stopDisabled c = false -> P (stopped p i c)) ->
  P (snd (session network decoder files es)).
Proof.
  intros H0 Hplay Hstop. unfold session.
  pose proof (loaded_well_formed network decoder files) as Hw.
  revert Hw H0. generalize (snd (onDOMContentLoaded network decoder files)).
  induction es as [|e es IH]; intros p Hw Hp; simpl; [exact Hp|].
  destruct (dispatch_well_formed e p Hw) as [Hn Hw'].
  assert (Hp' : P (snd (dispatch e p))).
  { destruct (dispatch_cases e p) as [E|[(i & c & H1 & H2 & E)|(i & c & H1 & H2 & E)]];
      rewrite E; eauto. }
  unfold bind. destruct (dispatch e p) as [[[]|err] p']; simpl in *;
    [|discriminate].
  now apply IH.
Qed.

Lemma map_modify_const {A B : Type} (g : A -> B) (i : nat) (c c' : A) (l : list A) :
  nth_error l i = Some c -> g c' = g c ->
  map g (modify i (fun _ => c') l) = map g l.
Proof.
  revert i. induction l as [|y l IH]; intros [|i]; simpl; try discriminate.
  - intros [= ->] E. now rewrite E.
  - intros H E. f_equal. now apply IH.
Qed.

(** X13.  In every session every source node of the context has been
    connected and started and carries the buffer of one of the controls of
    the panel: no node is ever left silent or unbound, and [stop] is never
    called on a node that was not started. *)
Theorem every_node_is_bound_connected_and_started
  (network : string -> reply) (decoder : list Z -> completion AudioBuffer)
  (files : list string) (es : list click) :
  let p := snd (session network decoder files es) in
  Forall (fun x => startCalled x = true /\ connected x = true
                   /\ In (buffer x)
                         (map (fun c => Some (audioBuffer c)) (audioControls p)))
         (nodes p).
Proof.
  apply (session_invariant
           (fun p => Forall (fun x => startCalled x = true /\ connected x = true
                                      /\ In (buffer x)
                                            (map (fun c => Some (audioBuffer c))
                                                 (audioControls p)))
                            (nodes p))).
  - rewrite onDOMContentLoaded_spec. constructor.
  - intros p i c _ H Hc _. unfold playing. simpl.
    rewrite (map_modify_const _ i c _ _ Hc) by reflexivity.
    apply Forall_app. split; [exact H|]. repeat constructor. simpl.
    apply (in_map (fun c => Some (audioBuffer c))). eapply nth_error_In, Hc.
  - intros p i c _ H Hc _. unfold stopped. simpl.
    rewrite (map_modify_const _ i c _ _ Hc) by reflexivity.
    destruct (sourceNode c) as [n|]; [|exact H].
    apply Forall_modify; [exact H|]. intros x Hx. simpl.
    exact (nth_error_Forall _ _ _ _ H Hx).
Qed.

(** X14.  Clicking never loads, logs or relabels anything: in every session
    the panel has the controls it had when loading ended, with the same
    labels and the same buffers in the same order, and the trace of fetches,
    console errors and appended controls is the one loading left. *)
Theorem clicks_leave_labels_buffers_and_trace
  (network : string -> reply) (decoder : list Z -> completion AudioBuffer)
  (files : list string) (es : list click) :
  let p0 := snd (onDOMContentLoaded network decoder files) in
  let p := snd (session network decoder files es) in
  map fileName (audioControls p) = map fileName (audioControls p0)
  /\ map audioBuffer (audioControls p) = map audioBuffer (audioControls p0)
  /\ effects p = effects p0.
Proof.
  intros p0.
  apply (session_invariant
           (fun p => map fileName (audioControls p) = map fileName (audioControls p0)
                     /\ map audioBuffer (audioControls p)
                        = map audioBuffer (audioControls p0)
                     /\ effects p = effects p0)).
  - auto.
  - intros p i c _ (H1 & H2 & H3) Hc _. unfold playing. simpl.
    now rewrite !(map_modify_const _ i c _ _ Hc) by reflexivity.
  - intros p i c _ (H1 & H2 & H3) Hc _. unfold stopped. simpl.
    now rewrite !(map_modify_const _ i c _ _ Hc) by reflexivity.
Qed.

(** ** Nodes and the controls that hold them *)

Lemma every_node_is_started
  (network : string -> reply) (decoder : list Z -> completion AudioBuffer)
  (files : list string) (es : list click) :
  Forall (fun x => startCalled x = true)
         (nodes (snd (session network decoder files es))).
Proof.
  apply (session_invariant (fun p => Forall (fun x => startCalled x = true) (nodes p))).
  - rewrite onDOMContentLoaded_spec. constructor.
  - intros p i c _ H _ _. unfold playing. simpl.
    apply Forall_app. split; [exact H|]. now repeat constructor.
  - intros p i c _ H _ _. unfold stopped. simpl.
    destruct (sourceNode c) as [n|]; [|exact H].
    apply Forall_modify; [exact H|]. intros x Hx. simpl.
    exact (nth_error_Forall _ _ _ _ H Hx).
Qed.

Lemma nth_error_modify_const {A : Type} (l : list A) (i j : nat) (c c' : A) :
  nth_error l i = Some c ->
  nth_error (modify i (fun _ => c') l) j
  = if Nat.eqb j i then Some c' else nth_error l j.
Proof.
  intros H. destruct (Nat.eqb_spec j i) as [->|Hne].
  - now rewrite (nth_error_modify_same _ _ _ _ H).
  - apply nth_error_modify_other. congruence.
Qed.

Lemma playing_tracked (p : page) (i : nat) (c : audioControl) :
  tracked p -> nth_error (audioControls p) i = Some c -> playDisabled c = false ->
  tracked (playing p i c).
Proof.
  intros (T1 & T2 & T3) Hc Hp.
  assert (Hfresh : nth_error (nodes p) (length (nodes p)) = None)
    by now apply nth_error_None.
  unfold tracked, playing; simpl. split; [|split].
  - intros i0 c0 n H0 Hn. rewrite (nth_error_modify_const _ _ i0 _ _ Hc) in H0.
    destruct (Nat.eqb_spec i0 i) as [->|Hne].
    + injection H0 as <-. simpl in *. injection Hn as <-.
      eexists. split; [apply nth_error_snoc|reflexivity].
    + destruct (T1 _ _ _ H0 Hn) as (x & Hx & Hs). exists x.
      split; [now apply nth_error_app_left|exact Hs].
  - intros i0 j0 ci cj n Hi Hj Hni Hnj.
    rewrite (nth_error_modify_const _ _ i0 _ _ Hc) in Hi.
    rewrite (nth_error_modify_const _ _ j0 _ _ Hc) in Hj.
    destruct (Nat.eqb_spec i0 i) as [->|Hnei], (Nat.eqb_spec j0 i) as [->|Hnej];
      auto.
    + injection Hi as <-. simpl in Hni. injection Hni as <-.
      destruct (T1 _ _ _ Hj Hnj) as (x & Hx & _). congruence.
    + injection Hj as <-. simpl in Hnj. injection Hnj as <-.
      destruct (T1 _ _ _ Hi Hni) as (x & Hx & _). congruence.
    + eapply T2; eauto.
  - intros n x Hx Hs.
    destruct (Nat.lt_ge_cases n (length (nodes p))) as [Hlt|Hge].
    + rewrite nth_error_app1 in Hx by exact Hlt.
      destruct (T3 _ _ Hx Hs) as (i0 & c0 & H0 & Hn0).
      destruct (Nat.eq_dec i0 i) as [->|Hne].
      * rewrite Hc in H0. injection H0 as <-.
        destruct (T1 _ _ _ Hc Hn0) as (x' & Hx' & Hs').
        rewrite Hx in Hx'. injection Hx' as <-.
        rewrite Hp in Hs'. simpl in Hs'. congruence.
      * exists i0, c0. split; [|exact Hn0].
        rewrite nth_error_modify_other by congruence. exact H0.
    + rewrite nth_error_app2 in Hx by exact Hge.
      destruct (n - length (nodes p))%nat as [|k] eqn:Ek; simpl in Hx;
        [|destruct k; discriminate].
      assert (n = length (nodes p)) by lia. subst n.
      exists i. eexists. split; [apply (nth_error_modify_same _ _ _ _ Hc)|reflexivity].
Qed.

Lemma stopped_tracked (p : page) (i : nat) (c : audioControl) :
  tracked p -> nth_error (audioControls p) i = Some c -> playDisabled c = true ->
  tracked (stopped p i c).
Proof.
  intros (T1 & T2 & T3) Hc Hp.
  assert (Hsame : forall j cj,
             nth_error (audioControls (stopped p i c)) j = Some cj ->
             exists cj0, nth_error (audioControls p) j = Some cj0
                         /\ sourceNode cj = sourceNode cj0
                         /\ (j <> i -> cj = cj0)
                         /\ (j = i -> playDisabled cj = false)).
  { intros j cj Hj. unfold stopped in Hj; simpl in Hj.
    rewrite (nth_error_modify_const _ _ _ _ _ Hc) in Hj.
    destruct (Nat.eqb_spec j i) as [->|Hne].
    - injection Hj as <-. exists c. simpl. repeat split; auto. intros; congruence.
    - exists cj. repeat split; auto. intros; congruence. }
  assert (Hback : forall j cj0,
             nth_error (audioControls p) j = Some cj0 ->
             exists cj, nth_error (audioControls (stopped p i c)) j = Some cj
                        /\ sourceNode cj = sourceNode cj0).
  { intros j cj0 Hj. unfold stopped; simpl.
    rewrite (nth_error_modify_const _ _ _ _ _ Hc).
    destruct (Nat.eqb_spec j i) as [->|Hne].
    - eexists. split; [reflexivity|]. simpl. congruence.
    - now exists cj0. }
  unfold tracked. split; [|split].
  - intros j cj n Hj Hn. destruct (Hsame _ _ Hj) as (cj0 & Hj0 & Hsn & Hne & Heq).
    rewrite Hsn in Hn. destruct (T1 _ _ _ Hj0 Hn) as (x & Hx & Hs).
    unfold stopped; simpl.
    destruct (Nat.eq_dec j i) as [->|Hji].
    + rewrite Hc in Hj0. injection Hj0 as <-. rewrite Hn.
      eexists. split; [apply (nth_error_modify_same _ _ _ _ Hx)|].
      simpl. now rewrite (Heq eq_refl).
    + rewrite (Hne Hji). destruct (sourceNode c) as [n0|] eqn:En0.
      * assert (n0 <> n) by (intros ->; apply Hji; eapply T2; eauto).
        exists x. split; [now rewrite nth_error_modify_other|exact Hs].
      * now exists x.
  - intros j1 j2 c1 c2 n H1 H2 Hn1 Hn2.
    destruct (Hsame _ _ H1) as (c10 & H10 & E1 & _).
    destruct (Hsame _ _ H2) as (c20 & H20 & E2 & _).
    rewrite E1 in Hn1. rewrite E2 in Hn2. eapply T2; eauto.
  - intros n x Hx Hs. unfold stopped in Hx; simpl in Hx.
    assert (Hold : nth_error (nodes p) n = Some x).
    { destruct (sourceNode c) as [n0|] eqn:En0; [|exact Hx].
      destruct (Nat.eq_dec n0 n) as [->|Hne].
      - destruct (T1 _ _ _ Hc En0) as (x0 & Hx0 & _).
        rewrite (nth_error_modify_same _ _ _ _ Hx0) in Hx.
        injection Hx as <-. simpl in Hs. discriminate.
      - now rewrite nth_error_modify_other in Hx by exact Hne. }
    destruct (T3 _ _ Hold Hs) as (i0 & c0 & H0 & Hn0).
    destruct (Hback _ _ H0) as (c0' & H0' & E). exists i0, c0'.
    split; [exact H0'|congruence].
Qed.

Lemma session_tracked
  (network : string -> reply) (decoder : list Z -> completion AudioBuffer)
  (files : list string) (es : list click) :
  tracked (snd (session network decoder files es)).
Proof.
  apply (session_invariant tracked).
  - rewrite onDOMContentLoaded_spec. simpl. split; [|split].
    + intros i c n Hc Hn. simpl in Hc. apply nth_error_In in Hc.
      pose proof (loaded_controls_stopped network decoder files) as HF.
      rewrite Forall_forall in HF. destruct (HF _ Hc) as (_ & _ & E). congruence.
    + intros i j ci cj n Hi _ Hn _. simpl in Hi. apply nth_error_In in Hi.
      pose proof (loaded_controls_stopped network decoder files) as HF.
      rewrite Forall_forall in HF. destruct (HF _ Hi) as (_ & _ & E). congruence.
    + intros n x Hx. simpl in Hx. destruct n; discriminate.
  - intros p i c _ HT Hc Hp. now apply playing_tracked.
  - intros p i c Hw HT Hc Hs. apply stopped_tracked; auto.
    destruct (nth_error_Forall _ _ _ _ Hw Hc) as [Hb _].
    rewrite Hs in Hb. now destruct (playDisabled c).
Qed.

(** X15.  In every session a source node is sounding (started and not
    stopped) exactly when a control whose Stop button is enabled holds it,
    and no node is held by two controls: every sounding node can be stopped
    from the panel, and a control never has two nodes sounding. *)
Theorem a_node_sounds_iff_a_playing_control_holds_it
  (network : string -> reply) (decoder : list Z -> completion AudioBuffer)
  (files : list string) (es : list click) (n : nat) (x : sourceState) :
  let p := snd (session network decoder files es) in
  nth_error (nodes p) n = Some x ->
  (startCalled x = true /\ stopCalled x = false
   <-> exists i c, nth_error (audioControls p) i = Some c
                   /\ stopDisabled c = false /\ sourceNode c = Some n)
  /\ (forall i j ci cj,
        nth_error (audioControls p) i = Some ci ->
        nth_error (audioControls p) j = Some cj ->
        sourceNode ci = Some n -> sourceNode cj = Some n -> i = j).
Proof.
  intros p Hx.
  destruct (session_tracked network decoder files es) as (T1 & T2 & T3).
  destruct (session_well_formed network decoder files es) as [_ Hw].
  pose proof (every_node_is_started network decoder files es) as Hst.
  fold p in T1, T2, T3, Hw, Hst.
  split.
  - split.
    + intros [_ Hs]. destruct (T3 _ _ Hx Hs) as (i & c & Hc & Hn).
      exists i, c. repeat split; auto.
      destruct (T1 _ _ _ Hc Hn) as (x' & Hx' & Hs').
      rewrite Hx in Hx'. injection Hx' as <-.
      destruct (nth_error_Forall _ _ _ _ Hw Hc) as [Hb _].
      rewrite Hb, <- Hs'. exact Hs.
    + intros (i & c & Hc & Hd & Hn).
      destruct (T1 _ _ _ Hc Hn) as (x' & Hx' & Hs').
      rewrite Hx in Hx'. injection Hx' as <-.
      destruct (nth_error_Forall _ _ _ _ Hw Hc) as [Hb _].
      split; [exact (nth_error_Forall _ _ _ _ Hst Hx)|].
      rewrite Hs', <- Hb. exact Hd.
  - intros i j ci cj Hi Hj Hni Hnj. eapply T2; eauto.
Qed.

Lemma a_node_sounds_iff_a_playing_control_holds_it_witness :
  let network := fun _ : string => Response (Bytes [79; 103; 103; 83]) in
  let decoder := fun d : list Z => Normal (PCM d) in
  let p := snd (session network decoder audioFiles [Play 0; Play 1; Stop 0]) in
  exists i c, nth_error (audioControls p) i = Some c
              /\ stopDisabled c = false /\ sourceNode c = Some 1%nat.
Proof.
  intros network decoder p.
  exact (proj1 (proj1 (a_node_sounds_iff_a_playing_control_holds_it
                         network decoder audioFiles [Play 0; Play 1; Stop 0] 1
                         (mkSource (Some (PCM [79; 103; 103; 83])) true true false)
                         eq_refl))
               (conj eq_refl eq_refl)).
Defined.

End AudioTheory.
